(** * Linvisual: the Scene playback-and-composition engine

    A shallow embedding of [linalg_viz/scene/scene.py].

    Python objects are shared and mutable, so the embedding keeps them in a
    store: an Animation or a Vector is an address ([nat]) into a [gmap], and
    the lists of the Scene ([_objects], [_animations],
    [_original_animations]) hold addresses.  Membership tests ([in]),
    [list.remove] and [is] therefore compare addresses.

    Python [float]s are idealised as exact rationals ([Q]): the arithmetic
    on times (Timeline, Animation progress, the step of a capture loop) is
    exact, and statements about times are up to [Qeq] and say nothing about
    binary rounding.  Where a float is turned into a frame count
    ([int(duration * fps)] in [record]) the rounding decides the count, and
    the product is rounded as binary64 rounds it ([py_float_mul]).

    Every call the Scene makes on a collaborator (Timeline, Animation,
    renderer, pygame, PIL, print) is appended to a call log, in program
    order. *)

From Stdlib Require Import ZArith QArith Qabs Qround Lqa Lia.
From Stdlib Require Floats.
From stdpp Require Import base list gmap strings.
From Equations Require Import Equations.

Abbreviation anim_id := nat (only parsing).
Abbreviation ent_id := nat (only parsing).
Abbreviation scene_id := nat (only parsing).

(** ** Python built-ins used by the Scene *)

Definition Qltb (a b : Q) : bool := negb (Qle_bool b a).

(** [max(a, b)]: the first argument unless the second is strictly larger. *)
Definition py_max (a b : Q) : Q := if Qltb a b then b else a.

(** [int(x)] on a float: truncation towards zero. *)
Definition py_int (x : Q) : Z := Z.quot (Qnum x) (Zpos (Qden x)).

(** The integer part of the binary logarithm of [|x|], for [x] other
    than 0. *)
Definition ilog2 (x : Q) : Z :=
  let k := (Z.log2 (Z.abs (Qnum x)) - Z.log2 (Zpos (Qden x)))%Z in
  if Qle_bool (2 ^ k) (Qabs x) then k else (k - 1)%Z.

(** Rounding to the nearest integer, ties to the even one. *)
Definition round_half_even (x : Q) : Z :=
  let f := Qfloor x in
  match Qcompare (x - inject_Z f) (1 # 2) with
  | Lt => f
  | Gt => (f + 1)%Z
  | Eq => if Z.even f then f else (f + 1)%Z
  end.

(** The binary64 value nearest to [x] (round to nearest, ties to even): 53
    bits of precision, least exponent -1074.  It is [x] itself when [x] is a
    binary64 value.  Magnitudes beyond the binary64 range (from 2^1024 on),
    which Python turns into [inf], are outside the model and rounded
    alike. *)
Definition py_float (x : Q) : Q :=
  if Qeq_bool x 0 then 0
  else
    let e := Z.max (ilog2 x - 52) (-1074) in
    Qred (inject_Z (round_half_even (x / 2 ^ e)) * 2 ^ e).

(** [a * b] on floats: the exact product of the two binary64 values,
    rounded.  An [int] operand is converted first, a value given as a
    decimal literal is the binary64 value nearest to it. *)
Definition py_float_mul (a b : Q) : Q := py_float (py_float a * py_float b).

(** The value of a primitive binary64 float, when it is finite. *)
Definition float_value (f : PrimFloat.float) : option Q :=
  match FloatOps.Prim2SF f with
  | SpecFloat.S754_zero _ => Some 0%Q
  | SpecFloat.S754_finite s m e =>
      Some (Qred ((if s then -1 else 1) * inject_Z (Zpos m) * 2 ^ e)%Q)
  | _ => None
  end.

(** [range(n)]: [n] iterations, none when [n <= 0]. *)
Definition py_range (n : Z) : nat := Z.to_nat n.

(** [l.remove(x)]: delete the first occurrence; Python raises [ValueError]
    when there is none, which is [None] here. *)
Fixpoint list_remove (x : nat) (l : list nat) : option (list nat) :=
  match l with
  | [] => None
  | y :: l' => if decide (x = y) then Some l'
               else cons y <$> list_remove x l'
  end.

(** ** Timeline *)

Module Timeline.
Local Open Scope Q_scope.

(** Modelled from the spec: the tri-state mode of the Timeline (spec 3). *)
Inductive mode := Stopped | Playing | Paused.

(** Modelled from the spec: the Timeline class (linalg_viz/animation/timeline.py)
    is not part of the sources at hand; spec 3 and 4.1 give a single
    elapsed-time counter and a tri-state mode. *)
Record t := mk { _current_time : Q; _mode : mode }.

(** Modelled from the spec: a new Timeline is stopped at elapsed time 0
    (it needs play() to run, and only stop() resets the counter). *)
Definition new : t := mk 0 Stopped.

(** Modelled from the spec: play() takes stopped/paused to playing and is
    a no-op if already playing. *)
Definition play (tl : t) : t := mk (_current_time tl) Playing.

(** Modelled from the spec: stop() takes any state to stopped with elapsed
    reset to 0. *)
Definition stop (tl : t) : t := mk 0 Stopped.

(** Modelled from the spec: update(dt) advances elapsed by dt iff playing,
    and is a no-op otherwise. *)
Definition update (dt : Q) (tl : t) : t :=
  match _mode tl with
  | Playing => mk (_current_time tl + dt) Playing
  | _ => tl
  end.
End Timeline.

(** ** Animation *)

Module Animation.
Local Open Scope Q_scope.

(** Modelled from the spec: the variants of Animation
    (linalg_viz/animation/animator.py, absent); a VectorAnimation
    references its target entity in [_end], a GridTransformAnimation
    targets the grid. *)
Inductive kind :=
| VectorAnimation (_end : ent_id)
| GridTransformAnimation.

(** Modelled from the spec: an Animation has a duration and an
    elapsed-progress counter; start and end values only feed the
    interpolation, which the Scene never reads. *)
Record t := mk { _kind : kind; _duration : Q; _elapsed : Q }.

(** Modelled from the spec: update(dt) adds dt to progress, clamped at
    duration (never clamped below 0). *)
Definition update (dt : Q) (a : t) : t :=
  mk (_kind a) (_duration a)
     (if Qle_bool (_duration a) (_elapsed a + dt) then _duration a
      else _elapsed a + dt).

(** Modelled from the spec: reset() returns any state to idle
    (progress zero). *)
Definition reset (a : t) : t := mk (_kind a) (_duration a) 0.

(** Modelled from the spec: isFinished is the pure predicate
    elapsed >= duration. *)
Definition is_finished (a : t) : bool := Qle_bool (_duration a) (_elapsed a).

(** [isinstance(anim, VectorAnimation) and anim._end is obj] *)
Definition targets (obj : ent_id) (a : t) : bool :=
  match _kind a with
  | VectorAnimation e => bool_decide (e = obj)
  | GridTransformAnimation => false
  end.

(** [isinstance(anim, GridTransformAnimation)] *)
Definition is_grid (a : t) : bool :=
  match _kind a with
  | GridTransformAnimation => true
  | VectorAnimation _ => false
  end.
End Animation.

(** ** Vector (the drawable entity) *)

Module Vector.
(** Modelled from the spec: of the Vector class (linalg_viz/core/vector.py,
    absent) the Scene only writes the back-reference [_scene]; geometry and
    colour are left out. *)
Record t := mk { _scene : option scene_id }.
End Vector.

(** ** Collaborators at the boundary *)

(** Calls on the render surface.  The 2-D renderer is handed the camera, the
    3-D renderer is not; [with_camera] records which. *)
Inductive GlCall :=
| Clear
| Setup2DProjection
| Setup3DProjection
| DrawGrid (with_camera : bool)
| DrawTransformedGrid (anim : anim_id) (with_camera : bool)
| DrawVector (obj : ent_id) (with_camera : bool)
| DrawAnimatedVector (anim : anim_id) (with_camera : bool)
| DrawControlsHint (paused : bool)
| Flip.

(** A captured frame: the calls of the last render pass, which put the
    image on the framebuffer, with the viewport size it was read at.  The
    calls name the objects drawn; the pixels also depend on the state these
    objects were in (the progress of an animation), which a frame does not
    record.  Frames with the same calls show the same image when they were
    taken of worlds that agree on what a pass reads ([Terms.depicted]). *)
Record Frame := mkFrame { frame_size : Z * Z; frame_content : list GlCall }.

(** The arguments of [Image.save] for an animated GIF. *)
Record Gif := mkGif {
  gif_first : Frame;
  gif_append_images : list Frame;
  gif_duration : Z;
  gif_loop : Z }.

Inductive Call :=
| TimelinePlay
| TimelineStop
| TimelineUpdate (dt : Q)
| AnimationUpdate (anim : anim_id) (dt : Q)
| AnimationReset (anim : anim_id)
| ActiveRemove (anim : anim_id)
| Render (c : GlCall)
| InitPygame
| EventPump
| QuitPygame
| ReadPixels
| ImageSave (filename : string)
| PrintSaved (filename : string) (nframes : nat).

(** ** Scene *)

Module Scene.
Local Open Scope Q_scope.

(** Modelled from the spec: the classes Camera2D and Camera3D
    (linalg_viz/scene/camera.py) are absent; spec 4.3 gives a camera a
    viewport.  Pan, zoom and orbit state is left out.  The constructors are
    [Camera2D_new] and [Camera3D_new] below. *)
Inductive Camera := Camera2D (width height : Z) | Camera3D (width height : Z).

(** Modelled from the spec: the classes Grid2D and Grid3D
    (linalg_viz/scene/grid.py) are absent; their constructors take no
    argument. *)
Inductive Grid := Grid2D | Grid3D.

(** Modelled from the spec: the classes Renderer2D and Renderer3D
    (linalg_viz/rendering) are absent; spec 6 describes the calls on the
    render surface as fire-and-forget.  A renderer holds the viewport it was
    constructed for; the constructors are [Renderer2D_new] and
    [Renderer3D_new] below. *)
Inductive Renderer := Renderer2D (width height : Z) | Renderer3D (width height : Z).

(** The attributes [__init__] sets.  [_dragging] and [_last_mouse_pos]
    are only used by the mouse handlers, which are not modelled. *)
Record t := mk {
  _dim : Z;
  _width : Z;
  _height : Z;
  _title : string;
  _objects : list ent_id;
  _animations : list anim_id;
  _original_animations : list anim_id;
  _timeline : Timeline.t;
  _recording : bool;
  _frames : list Frame;
  _camera : Camera;
  _grid : Grid;
  _renderer : Renderer;
  _running : bool;
  _paused : bool;
  _screen : option (Z * Z);
  _clock : bool;
  _show_grid : bool;
  _step_size : Q }.

Definition set_objects (v : list ent_id) (s : t) : t :=
  mk (_dim s) (_width s) (_height s) (_title s) v (_animations s)
     (_original_animations s) (_timeline s) (_recording s) (_frames s)
     (_camera s) (_grid s) (_renderer s) (_running s) (_paused s)
     (_screen s) (_clock s) (_show_grid s) (_step_size s).

Definition set_animations (v : list anim_id) (s : t) : t :=
  mk (_dim s) (_width s) (_height s) (_title s) (_objects s) v
     (_original_animations s) (_timeline s) (_recording s) (_frames s)
     (_camera s) (_grid s) (_renderer s) (_running s) (_paused s)
     (_screen s) (_clock s) (_show_grid s) (_step_size s).

Definition set_original_animations (v : list anim_id) (s : t) : t :=
  mk (_dim s) (_width s) (_height s) (_title s) (_objects s) (_animations s)
     v (_timeline s) (_recording s) (_frames s)
     (_camera s) (_grid s) (_renderer s) (_running s) (_paused s)
     (_screen s) (_clock s) (_show_grid s) (_step_size s).

Definition set_timeline (v : Timeline.t) (s : t) : t :=
  mk (_dim s) (_width s) (_height s) (_title s) (_objects s) (_animations s)
     (_original_animations s) v (_recording s) (_frames s)
     (_camera s) (_grid s) (_renderer s) (_running s) (_paused s)
     (_screen s) (_clock s) (_show_grid s) (_step_size s).

Definition set_recording (v : bool) (s : t) : t :=
  mk (_dim s) (_width s) (_height s) (_title s) (_objects s) (_animations s)
     (_original_animations s) (_timeline s) v (_frames s)
     (_camera s) (_grid s) (_renderer s) (_running s) (_paused s)
     (_screen s) (_clock s) (_show_grid s) (_step_size s).

Definition set_frames (v : list Frame) (s : t) : t :=
  mk (_dim s) (_width s) (_height s) (_title s) (_objects s) (_animations s)
     (_original_animations s) (_timeline s) (_recording s) v
     (_camera s) (_grid s) (_renderer s) (_running s) (_paused s)
     (_screen s) (_clock s) (_show_grid s) (_step_size s).

Definition set_running (v : bool) (s : t) : t :=
  mk (_dim s) (_width s) (_height s) (_title s) (_objects s) (_animations s)
     (_original_animations s) (_timeline s) (_recording s) (_frames s)
     (_camera s) (_grid s) (_renderer s) v (_paused s)
     (_screen s) (_clock s) (_show_grid s) (_step_size s).

Definition set_paused (v : bool) (s : t) : t :=
  mk (_dim s) (_width s) (_height s) (_title s) (_objects s) (_animations s)
     (_original_animations s) (_timeline s) (_recording s) (_frames s)
     (_camera s) (_grid s) (_renderer s) (_running s) v
     (_screen s) (_clock s) (_show_grid s) (_step_size s).

Definition set_window (scr : option (Z * Z)) (clk : bool) (s : t) : t :=
  mk (_dim s) (_width s) (_height s) (_title s) (_objects s) (_animations s)
     (_original_animations s) (_timeline s) (_recording s) (_frames s)
     (_camera s) (_grid s) (_renderer s) (_running s) (_paused s)
     scr clk (_show_grid s) (_step_size s).

(** The part of the Python heap and of the outside world a Scene method
    can touch: the Scene object itself ([self], at address [self_id]),
    the Animation and Vector objects it references, the framebuffer, the
    files written, and the log of calls made so far (oldest first). *)
Record World := mkWorld {
  self_id : scene_id;
  self : t;
  animation_objs : gmap anim_id Animation.t;
  vector_objs : gmap ent_id Vector.t;
  framebuffer : list GlCall;
  files : list (string * Gif);
  calls : list Call }.

Definition set_self (v : t) (w : World) : World :=
  mkWorld (self_id w) v (animation_objs w) (vector_objs w) (framebuffer w)
          (files w) (calls w).

Definition upd_self (f : t -> t) (w : World) : World := set_self (f (self w)) w.

Definition set_animation_objs (v : gmap anim_id Animation.t) (w : World) : World :=
  mkWorld (self_id w) (self w) v (vector_objs w) (framebuffer w)
          (files w) (calls w).

Definition set_vector_objs (v : gmap ent_id Vector.t) (w : World) : World :=
  mkWorld (self_id w) (self w) (animation_objs w) v (framebuffer w)
          (files w) (calls w).

Definition set_framebuffer (v : list GlCall) (w : World) : World :=
  mkWorld (self_id w) (self w) (animation_objs w) (vector_objs w) v
          (files w) (calls w).

Definition set_files (v : list (string * Gif)) (w : World) : World :=
  mkWorld (self_id w) (self w) (animation_objs w) (vector_objs w)
          (framebuffer w) v (calls w).

Definition log (cs : list Call) (w : World) : World :=
  mkWorld (self_id w) (self w) (animation_objs w) (vector_objs w)
          (framebuffer w) (files w) (calls w ++ cs).

(** *** Construction *)

(** The exceptions that can leave a method of the Scene.  [ValueError] and
    [ZeroDivisionError] arise in scene.py itself; [ConfigurationError] is
    the error of the absent constructors and [ImageSaveError] the one of
    PIL's [Image.save]. *)
Inductive Exn :=
| ValueError (msg : string)
| ZeroDivisionError
| ConfigurationError
| ImageSaveError.

(** Modelled from the spec: spec 7 names an "invalid viewport size" without
    saying which sizes are invalid; a size is taken as valid when width and
    height are both positive. *)
Definition valid_viewport (width height : Z) : bool :=
  (0 <? width)%Z && (0 <? height)%Z.

(** Modelled from the spec: the constructors of the absent classes Camera2D,
    Camera3D, Renderer2D and Renderer3D.  Spec 7 makes an invalid viewport
    size a ConfigurationError that fails the construction of the Scene;
    [Scene.__init__] never looks at the size itself and hands it to these
    constructors, so the error is theirs. *)
Definition Camera2D_new (width height : Z) : Exn + Camera :=
  if valid_viewport width height then inr (Camera2D width height)
  else inl ConfigurationError.

Definition Camera3D_new (width height : Z) : Exn + Camera :=
  if valid_viewport width height then inr (Camera3D width height)
  else inl ConfigurationError.

Definition Renderer2D_new (width height : Z) : Exn + Renderer :=
  if valid_viewport width height then inr (Renderer2D width height)
  else inl ConfigurationError.

Definition Renderer3D_new (width height : Z) : Exn + Renderer :=
  if valid_viewport width height then inr (Renderer3D width height)
  else inl ConfigurationError.

(** [Scene.__init__]; the defaults are dim=2, width=800, height=600 and
    title="linalg-viz".  The only check of its own is the one on [dim]; an
    exception of a constructor it calls ends the construction. *)
Definition __init__ (dim width height : Z) (title : string) : Exn + t :=
  if negb (bool_decide (dim = 2%Z) || bool_decide (dim = 3%Z)) then
    inl (ValueError "Dimension must be 2 or 3")
  else
    let camera :=
      if bool_decide (dim = 2%Z) then Camera2D_new width height
      else Camera3D_new width height in
    let grid := if bool_decide (dim = 2%Z) then Grid2D else Grid3D in
    let renderer :=
      if bool_decide (dim = 2%Z) then Renderer2D_new width height
      else Renderer3D_new width height in
    match camera with
    | inl e => inl e
    | inr camera =>
        match renderer with
        | inl e => inl e
        | inr renderer =>
            inr (mk dim width height title [] [] [] Timeline.new false []
                   camera grid renderer false false None false true (5 # 100))
        end
    end.

(** *** Entities *)

Definition set_scene (obj : ent_id) (v : option scene_id) (w : World) : World :=
  set_vector_objs (<[obj := Vector.mk v]> (vector_objs w)) w.

(** One iteration of the loop of [add]. *)
Definition add1 (w : World) (obj : ent_id) : World :=
  if decide (obj ∈ _objects (self w)) then w
  else set_scene obj (Some (self_id w))
         (upd_self (set_objects (_objects (self w) ++ [obj])) w).

Definition add (objects : list ent_id) (w : World) : World :=
  foldl add1 w objects.

(** [self._objects.remove(obj)] is guarded by [obj in self._objects], so
    its [ValueError] cannot arise ([list_remove_is_Some] below). *)
Definition remove (obj : ent_id) (w : World) : World :=
  if decide (obj ∈ _objects (self w)) then
    let l := default (_objects (self w)) (list_remove obj (_objects (self w))) in
    set_scene obj None (upd_self (set_objects l) w)
  else w.

Definition clear (w : World) : World :=
  let w1 := foldl (fun w obj => set_scene obj None w) w (_objects (self w)) in
  upd_self (fun s => set_animations [] (set_objects [] s)) w1.

Definition _add_animation (animation : anim_id) (w : World) : World :=
  upd_self (fun s =>
    set_original_animations (_original_animations s ++ [animation])
      (set_animations (_animations s ++ [animation]) s)) w.

(** *** Method calls on the collaborators

    A method call on an Animation updates the object at its address, for
    every list that holds the address.  The lists of a Scene only hold
    addresses of live objects; on an address outside the store the readers
    below answer like an idle animation and the writers change nothing. *)

Definition timeline_call (f : Timeline.t -> Timeline.t) (c : Call) (w : World) : World :=
  log [c] (upd_self (fun s => set_timeline (f (_timeline s)) s) w).

Definition animation_call (f : Animation.t -> Animation.t) (c : Call)
    (anim : anim_id) (w : World) : World :=
  log [c] (set_animation_objs (alter f anim (animation_objs w)) w).

Definition anim_reset (w : World) (anim : anim_id) : World :=
  animation_call Animation.reset (AnimationReset anim) anim w.

Definition anim_update (dt : Q) (w : World) (anim : anim_id) : World :=
  animation_call (Animation.update dt) (AnimationUpdate anim dt) anim w.

Definition anim_is_finished (w : World) (anim : anim_id) : bool :=
  match animation_objs w !! anim with
  | Some a => Animation.is_finished a
  | None => false
  end.

Definition anim_elapsed (w : World) (anim : anim_id) : Q :=
  match animation_objs w !! anim with
  | Some a => Animation._elapsed a
  | None => 0
  end.

(** *** Playback *)

(** [for anim in self._animations: anim.reset()] *)
Definition reset_active (w : World) : World :=
  foldl anim_reset w (_animations (self w)).

(** The body of [for anim in self._original_animations: if anim not in
    self._animations: anim.reset(); self._animations.append(anim)]. *)
Definition restore1 (w : World) (anim : anim_id) : World :=
  if decide (anim ∈ _animations (self w)) then w
  else upd_self (fun s => set_animations (_animations s ++ [anim]) s)
         (anim_reset w anim).

Definition restore_missing (w : World) : World :=
  foldl restore1 w (_original_animations (self w)).

Definition _replay (w : World) : World :=
  let w := reset_active w in
  let w := restore_missing w in
  let w := timeline_call Timeline.stop TimelineStop w in
  let w := timeline_call Timeline.play TimelinePlay w in
  upd_self (set_paused false) w.

Definition _step (dt : Q) (w : World) : World :=
  let w := timeline_call (Timeline.update dt) (TimelineUpdate dt) w in
  foldl (anim_update dt) w (_animations (self w)).

Definition _get_total_progress (w : World) : Q :=
  match _animations (self w) with
  | anim :: _ => anim_elapsed w anim
  | [] => Timeline._current_time (_timeline (self w))
  end.

Definition _step_backward (w : World) : World :=
  let current_progress := _get_total_progress w in
  let target_progress := py_max 0 (current_progress - _step_size (self w)) in
  let w := reset_active w in
  let w := restore_missing w in
  let w := timeline_call Timeline.stop TimelineStop w in
  let w := if Qltb 0 target_progress then _step target_progress w else w in
  upd_self (set_paused true) w.

(** The body of the first loop of [_update]: advance one animation and
    note it when it has finished. *)
Definition update1 (dt : Q) (st : World * list anim_id) (anim : anim_id)
    : World * list anim_id :=
  let w := anim_update dt st.1 anim in
  (w, if anim_is_finished w anim then st.2 ++ [anim] else st.2).

(** [self._animations.remove(anim)].  Every entry of [finished] is still in
    the active list when its turn comes ([active_remove_all] and
    [update_unfold] below), so the [ValueError] branch is never taken. *)
Definition active_remove (w : World) (anim : anim_id) : World :=
  match list_remove anim (_animations (self w)) with
  | Some l => log [ActiveRemove anim] (upd_self (set_animations l) w)
  | None => w
  end.

Definition _update (dt : Q) (w : World) : World :=
  if _paused (self w) then w
  else
    let w := timeline_call (Timeline.update dt) (TimelineUpdate dt) w in
    let '(w, finished) := foldl (update1 dt) (w, []) (_animations (self w)) in
    foldl active_remove w finished.

(** *** Rendering *)

(** The inner loop over [self._animations] with its [break]: the first
    active VectorAnimation whose [_end] is the entity. *)
Definition active_anim (w : World) (obj : ent_id) : option anim_id :=
  List.find (fun anim =>
               match animation_objs w !! anim with
               | Some a => Animation.targets obj a
               | None => false
               end) (_animations (self w)).

Definition draw_object (cam : bool) (w : World) (obj : ent_id) : GlCall :=
  match active_anim w obj with
  | Some anim =>
      if negb (anim_is_finished w anim) then DrawAnimatedVector anim cam
      else DrawVector obj cam
  | None => DrawVector obj cam
  end.

Definition is_grid_transform (w : World) (anim : anim_id) : bool :=
  match animation_objs w !! anim with
  | Some a => Animation.is_grid a
  | None => false
  end.

(** The calls of one render pass; [_render_2d] and [_render_3d] differ in
    the projection set up and in whether the camera is passed along. *)
Definition render_pass (setup : GlCall) (cam : bool) (w : World) : list GlCall :=
  [Clear; setup]
  ++ (if _show_grid (self w) then [DrawGrid cam] else [])
  ++ map (fun anim => DrawTransformedGrid anim cam)
         (List.filter (is_grid_transform w) (_animations (self w)))
  ++ map (draw_object cam w) (_objects (self w))
  ++ [DrawControlsHint (_paused (self w)); Flip].

Definition issue (pass : list GlCall) (w : World) : World :=
  set_framebuffer pass (log (map Render pass) w).

Definition _render_2d (w : World) : World :=
  issue (render_pass Setup2DProjection true w) w.

Definition _render_3d (w : World) : World :=
  issue (render_pass Setup3DProjection false w) w.

Definition _render (w : World) : World :=
  if bool_decide (_dim (self w) = 2%Z) then _render_2d w else _render_3d w.

(** *** Interactive input

    The keyboard part of [_handle_events]; resize and mouse events only
    touch the viewport and the camera, and [K_c] resets the camera, whose
    view state is not modelled. *)

Inductive Key := K_ESCAPE | K_r | K_SPACE | K_RIGHT | K_LEFT | K_c | K_other.
Inductive Event := QUIT | KEYDOWN (key : Key).

Definition handle_event (w : World) (event : Event) : World :=
  match event with
  | QUIT => upd_self (set_running false) w
  | KEYDOWN K_ESCAPE => upd_self (set_running false) w
  | KEYDOWN K_r => _replay w
  | KEYDOWN K_SPACE => upd_self (fun s => set_paused (negb (_paused s)) s) w
  | KEYDOWN K_RIGHT =>
      let w := upd_self (set_paused true) w in
      _step (_step_size (self w)) w
  | KEYDOWN K_LEFT => _step_backward w
  | KEYDOWN K_c => w
  | KEYDOWN K_other => w
  end.

Definition _handle_events (events : list Event) (w : World) : World :=
  foldl handle_event w events.

(** One iteration of the loop of [show], with the wall-clock delta and the
    drained event queue as inputs. *)
Definition show_iteration (dt : Q) (events : list Event) (w : World) : World :=
  _render (_update dt (_handle_events events w)).

(** *** Capture and export *)

(** How a call that may raise ends, with the world it leaves behind. *)
Inductive Outcome := Returned (w : World) | Raised (e : Exn) (w : World).

Definition _init_pygame (w : World) : World :=
  log [InitPygame]
    (upd_self (fun s => set_window (Some (_width s, _height s)) true s) w).

Definition _capture_frame (w : World) : World :=
  if negb (_recording (self w)) then w
  else
    let image := mkFrame (_width (self w), _height (self w)) (framebuffer w) in
    log [ReadPixels] (upd_self (fun s => set_frames (_frames s ++ [image]) s) w).

(** [int(1000 / fps)], the [duration] handed to [Image.save]. *)
Definition frame_duration (fps : Z) : Z := py_int (1000 / inject_Z fps).

(** [Image.save] belongs to PIL.  Of what it does with the [duration] it is
    handed the model keeps this: the delay of a GIF frame is an unsigned
    field, and a negative duration raises instead of being written (spec 7
    has such a codec failure surface to the caller of the export).  No file
    is recorded for a save that raised. *)
Definition image_save_accepts (duration : Z) : bool := (0 <=? duration)%Z.

Definition _save_gif (filename : string) (fps : Z) (w : World) : Outcome :=
  match _frames (self w) with
  | [] => Returned w
  | first :: rest =>
      if bool_decide (fps = 0%Z) then Raised ZeroDivisionError w
      else
        let duration := frame_duration fps in
        if image_save_accepts duration then
          let gif := mkGif first rest duration 0 in
          Returned
            (log [ImageSave filename;
                  PrintSaved filename (length (_frames (self w)))]
               (set_files (files w ++ [(filename, gif)]) w))
        else Raised ImageSaveError (log [ImageSave filename] w)
  end.

(** The common prologue of [record] and [record_play]. *)
Definition begin_capture (w : World) : World :=
  let w := upd_self (set_recording true) w in
  let w := upd_self (set_frames []) w in
  let w := _init_pygame w in
  timeline_call Timeline.play TimelinePlay w.

(** The common epilogue: [_save_gif], [pygame.quit()],
    [self._recording = False]. *)
Definition end_capture (filename : string) (fps : Z) (w : World) : Outcome :=
  match _save_gif filename fps w with
  | Returned w => Returned (upd_self (set_recording false) (log [QuitPygame] w))
  | Raised e w => Raised e w
  end.

(** The body of both capture loops: pump, update, render, capture. *)
Definition capture_iteration (frame_time : Q) (w : World) : World :=
  _capture_frame (_render (_update frame_time (log [EventPump] w))).

(** The body of the trailing loop of [record_play]: no update. *)
Definition still_iteration (w : World) : World :=
  _capture_frame (_render (log [EventPump] w)).

(** [int(duration * fps)], the number of frames [record] asks for: the
    binary64 product, truncated. *)
Definition total_frames (duration : Q) (fps : Z) : Z :=
  py_int (py_float_mul duration (inject_Z fps)).


Definition record (filename : string) (duration : Q) (fps : Z) (w : World)
    : Outcome :=
  let w := begin_capture w in
  if bool_decide (fps = 0%Z) then Raised ZeroDivisionError w
  else
    let frame_time := 1 / inject_Z fps in
    let w := Nat.iter (py_range (total_frames duration fps))
               (capture_iteration frame_time) w in
    end_capture filename fps w.

Definition max_frames : nat := 300.

(** [while self._animations and frame_count < max_frames: ...;
    frame_count += 1]; returns the final [frame_count] with the world.
    The delta and the progress of the animations are exact rationals here.
    In binary64 the deltas of n frames can add up to just under n/fps, so
    where an animation ends on a frame boundary the loop of the code can
    run one iteration more than this one; the number of iterations is
    float-independent only where no animation advances. *)
Equations? capture_until_complete (frame_time : Q) (frame_count : nat)
    (w : World) : nat * World by wf (max_frames - frame_count)%nat lt :=
  capture_until_complete frame_time frame_count w
    with decide (_animations (self w) ≠ [] ∧ (frame_count < max_frames)%nat) := {
    | left _ =>
        capture_until_complete frame_time (S frame_count)
          (capture_iteration frame_time w)
    | right _ => (frame_count, w) }.
Proof. unfold max_frames in *. lia. Qed.

Definition record_play (filename : string) (fps : Z) (w : World) : Outcome :=
  let w := begin_capture w in
  if bool_decide (fps = 0%Z) then Raised ZeroDivisionError w
  else
    let frame_time := 1 / inject_Z fps in
    let w := (capture_until_complete frame_time 0 w).2 in
    let w := Nat.iter (py_range fps) still_iteration w in
    end_capture filename fps w.

End Scene.

(** * Sample worlds *)

Module Samples.
Import Scene.
Local Open Scope Q_scope.

(** [Scene(dim=2)] with the default viewport and title. *)
Definition scene2d : Scene.t :=
  mk 2 800 600 "linalg-viz" [] [] [] Timeline.new false []
     (Camera2D 800 600) Grid2D (Renderer2D 800 600)
     false false None false true (5 # 100).

Definition vec_anim (target : ent_id) (duration : Q) : Animation.t :=
  Animation.mk (Animation.VectorAnimation target) duration 0.

(** A fresh 2-D Scene at address 0 next to two Vector objects (0 and 1) and
    two VectorAnimation objects (10 and 11) with the given targets and
    durations. *)
Definition fresh (target10 target11 : ent_id) (duration10 duration11 : Q)
    : World :=
  mkWorld 0 scene2d
    (<[10%nat := vec_anim target10 duration10]>
       (<[11%nat := vec_anim target11 duration11]> ∅))
    (<[0%nat := Vector.mk None]> (<[1%nat := Vector.mk None]> ∅))
    [] [] [].

(** The linear-transform scene of generate_gifs.py: two vectors, each with
    its own one-second animation. *)
Definition gifs_world : World :=
  _add_animation 11 (_add_animation 10 (add [0%nat; 1%nat] (fresh 0 1 1 1))).

(** The same scene with a half-second animation registered before a
    one-second one. *)
Definition staggered_world : World :=
  _add_animation 11 (_add_animation 10 (add [0%nat; 1%nat] (fresh 0 1 (1 # 2) 1))).

(** One vector targeted by two animations, the first of which lasts a
    single keyboard step. *)
Definition doubly_animated_world : World :=
  _add_animation 11 (_add_animation 10 (add [0%nat] (fresh 0 0 (5 # 100) 1))).

(** One static vector and a grid animation that lasts a single keyboard
    step. *)
Definition grid_world : World :=
  _add_animation 12
    (add [0%nat]
       (mkWorld 0 scene2d
          (<[12%nat := Animation.mk Animation.GridTransformAnimation (5 # 100) 0]> ∅)
          (<[0%nat := Vector.mk None]> ∅) [] [] [])).

(** Static vectors only, as in the basic_vectors scene of generate_gifs.py. *)
Definition basic_world : World := add [0%nat; 1%nat] (fresh 0 1 1 1).

(** [play()] up to the first iteration of the interactive loop. *)
Definition started (w : World) : World :=
  timeline_call Timeline.play TimelinePlay w.

(** A world whose Scene holds one captured frame. *)
Definition one_frame_world : World :=
  _capture_frame (_render (upd_self (set_recording true) basic_world)).

End Samples.

(** * Vocabulary of the properties *)

Module Spec.
Import Scene.
Local Open Scope Q_scope.

(** [playback w w']: from [w] to [w'] only the Timeline, the active list,
    the paused flag and the Animation objects may have changed, and the call
    log has only grown. *)
Definition playback (w w' : World) : Prop :=
  exists anims tl p objs cs,
    w' = mkWorld (self_id w)
           (set_paused p (set_animations anims (set_timeline tl (self w))))
           objs (vector_objs w) (framebuffer w) (files w) (calls w ++ cs).

(** What a capture session leaves behind: [n] frames still in the buffer,
    recording switched off, and, unless the buffer is empty, one more file
    that holds exactly the frames of the buffer. *)
Definition session_result (filename : string) (fps : Z) (n : nat)
    (w w' : World) : Prop :=
  length (_frames (self w')) = n /\
  _recording (self w') = false /\
  match _frames (self w') with
  | [] => files w' = files w
  | first :: rest =>
      files w' = files w ++ [(filename, mkGif first rest (frame_duration fps) 0)]
  end.

(** [same_clock w w']: the Timeline and the paused flag are untouched. *)
Definition same_clock (w w' : World) : Prop :=
  _timeline (self w') = _timeline (self w) /\
  _paused (self w') = _paused (self w).

(** The render pass [_render] issues in world [w]. *)
Definition current_pass (w : World) : list GlCall :=
  if bool_decide (_dim (self w) = 2%Z) then render_pass Setup2DProjection true w
  else render_pass Setup3DProjection false w.

(** [anim] is a VectorAnimation whose [_end] is the entity [obj]. *)
Definition targets_entity (w : World) (obj : ent_id) (anim : anim_id) : Prop :=
  exists a, animation_objs w !! anim = Some a /\
            Animation._kind a = Animation.VectorAnimation obj.

(** [anim] is the first entry of the active list that targets [obj]. *)
Definition first_target (w : World) (obj : ent_id) (anim : anim_id) : Prop :=
  exists l1 l2,
    _animations (self w) = l1 ++ anim :: l2 /\
    targets_entity w obj anim /\
    forall b, b ∈ l1 -> ~ targets_entity w obj b.

(** The calls of a pass that draw the grid. *)
Definition grid_part (cam : bool) (w : World) : list GlCall :=
  (if _show_grid (self w) then [DrawGrid cam] else [])
  ++ map (fun anim => DrawTransformedGrid anim cam)
       (filter (fun anim => is_grid_transform w anim = true)
          (_animations (self w))).

(** What the second loop of [_replay] appends: the original animations that
    are not active, each once, in original order. *)
Fixpoint missing (active originals : list anim_id) : list anim_id :=
  match originals with
  | [] => []
  | a :: l => if decide (a ∈ active) then missing active l
              else a :: missing (active ++ [a]) l
  end.

(** One press of the right arrow: pause and single-step forward. *)
Definition key_right (w : World) : World := handle_event w (KEYDOWN K_RIGHT).

(** The invariant of spec 3: no entity is in the draw order twice, every
    active animation is in the original list, and the keyboard step is the
    constant of the constructor. *)
Definition scene_inv (w : World) : Prop :=
  NoDup (_objects (self w)) /\
  (forall a, a ∈ _animations (self w) -> a ∈ _original_animations (self w)) /\
  _step_size (self w) = 5 # 100.

(** Every animation has been registered once, and is active at most once. *)
Definition registered_once (w : World) : Prop :=
  NoDup (_original_animations (self w)) /\ NoDup (_animations (self w)).

End Spec.

(** * The interactive session *)

Module Interactive.
Import Scene.
Local Open Scope Q_scope.

(** The events on which [_handle_events] clears [_running]. *)
Definition is_quit (event : Event) : bool :=
  match event with
  | QUIT => true
  | KEYDOWN K_ESCAPE => true
  | KEYDOWN _ => false
  end.

(** [while self._running: ...] followed by [pygame.quit()].  Each element of
    [inputs] is what one iteration reads from outside: the delta of
    [self._clock.tick(60) / 1000.0] and the events drained by
    [pygame.event.get()].  [None] when the input ends with the loop still
    running. *)
Fixpoint show_loop (inputs : list (Q * list Event)) (w : World) : option World :=
  if _running (self w) then
    match inputs with
    | [] => None
    | (dt, events) :: rest => show_loop rest (show_iteration dt events w)
    end
  else Some (log [QuitPygame] w).

Definition show (inputs : list (Q * list Event)) (w : World) : option World :=
  let w := _init_pygame w in
  let w := upd_self (set_running true) w in
  show_loop inputs w.

Definition play (inputs : list (Q * list Event)) (w : World) : option World :=
  let w := timeline_call Timeline.play TimelinePlay w in
  show inputs w.

End Interactive.

(** * [_update] with the exception of [list.remove] *)

Module Raising.
Import Scene.
Local Open Scope Q_scope.

(** [self._animations.remove(anim)]: [ValueError] when [anim] is not in the
    list. *)
Definition active_remove_exn (w : World) (anim : anim_id) : Exn + World :=
  match list_remove anim (_animations (self w)) with
  | Some l => inr (log [ActiveRemove anim] (upd_self (set_animations l) w))
  | None => inl (ValueError "list.remove(x): x not in list")
  end.

(** [for anim in finished: self._animations.remove(anim)], stopping at the
    first exception. *)
Fixpoint remove_finished_exn (w : World) (finished : list anim_id)
    : Exn + World :=
  match finished with
  | [] => inr w
  | anim :: rest =>
      match active_remove_exn w anim with
      | inr w' => remove_finished_exn w' rest
      | inl e => inl e
      end
  end.

Definition _update_exn (dt : Q) (w : World) : Exn + World :=
  if _paused (self w) then inr w
  else
    let w := timeline_call (Timeline.update dt) (TimelineUpdate dt) w in
    let '(w, finished) := foldl (update1 dt) (w, []) (_animations (self w)) in
    remove_finished_exn w finished.

End Raising.

(** * Further vocabulary *)

Module Terms.
Import Scene Spec Interactive.
Local Open Scope Q_scope.

(** The worlds a program can reach: a constructed Scene next to any objects,
    and whatever the methods of the Scene make of a reachable world. *)
Inductive reachable : World -> Prop :=
| reach_init dim width height title s id objs vecs :
    __init__ dim width height title = inr s ->
    reachable (mkWorld id s objs vecs [] [] [])
| reach_add objects w : reachable w -> reachable (add objects w)
| reach_remove obj w : reachable w -> reachable (remove obj w)
| reach_clear w : reachable w -> reachable (clear w)
| reach_add_animation anim w : reachable w -> reachable (_add_animation anim w)
| reach_event event w : reachable w -> reachable (handle_event w event)
| reach_update dt w : reachable w -> reachable (_update dt w)
| reach_render w : reachable w -> reachable (_render w)
| reach_show inputs w w' :
    reachable w -> show inputs w = Some w' -> reachable w'
| reach_play inputs w w' :
    reachable w -> play inputs w = Some w' -> reachable w'
| reach_record filename duration fps w w' :
    reachable w -> record filename duration fps w = Returned w' -> reachable w'
| reach_record_raised filename duration fps w e w' :
    reachable w -> record filename duration fps w = Raised e w' -> reachable w'
| reach_record_play filename fps w w' :
    reachable w -> record_play filename fps w = Returned w' -> reachable w'
| reach_record_play_raised filename fps w e w' :
    reachable w -> record_play filename fps w = Raised e w' -> reachable w'.

(** How often [a] is listed in [l]. *)
Definition occurrences (a : anim_id) (l : list anim_id) : nat :=
  length (filter (fun x => x = a) l).


(** The entity a draw call is for, if it is one of the two entity calls. *)
Definition drawn_entity (w : World) (c : GlCall) : option ent_id :=
  match c with
  | DrawVector obj _ => Some obj
  | DrawAnimatedVector anim _ =>
      match animation_objs w !! anim with
      | Some a =>
          match Animation._kind a with
          | Animation.VectorAnimation e => Some e
          | Animation.GridTransformAnimation => None
          end
      | None => None
      end
  | _ => None
  end.

(** The entities a pass draws, in the order of its calls. *)
Definition drawn_entities (w : World) (pass : list GlCall) : list ent_id :=
  omap (drawn_entity w) pass.

(** What a render pass can read: the Scene apart from its Timeline, frame
    buffer, recording flag and window, and the Animation and Vector objects.
    A frame records the draw calls of a pass; the pixels also depend on the
    state of the objects drawn (the progress of an animation), so two frames
    show the same image when their worlds agree on [depicted], not merely
    when their calls agree. *)
Definition depicted (w : World)
    : Scene.t * gmap anim_id Animation.t * gmap ent_id Vector.t :=
  (set_window None false
     (set_timeline Timeline.new
        (set_recording false (set_frames [] (self w)))),
   animation_objs w, vector_objs w).

(** The progress [_step_backward] steers for. *)
Definition target_progress (w : World) : Q :=
  py_max 0 (_get_total_progress w - _step_size (self w)).

End Terms.

(** * Properties *)

Import Scene Spec.
Local Open Scope Q_scope.

(** ** Lists *)

Lemma list_remove_split (x : nat) (l : list nat) :
  x ∈ l ->
  exists l1 l2, l = l1 ++ x :: l2 /\ (x ∉ l1) /\ list_remove x l = Some (l1 ++ l2).
Proof.
  induction l as [|y l IH]; intros Hin.
  - by apply elem_of_nil in Hin.
  - simpl. destruct (decide (x = y)) as [->|Hne].
    + exists [], l. split; [done|]. split; [apply not_elem_of_nil|done].
    + apply elem_of_cons in Hin as [?|Hin]; [done|].
      destruct (IH Hin) as (l1 & l2 & -> & Hl1 & ->).
      exists (y :: l1), l2. split; [done|]. split; [|done].
      rewrite elem_of_cons. intros [?|?]; done.
Qed.

Lemma list_remove_is_Some (x : nat) (l : list nat) :
  x ∈ l -> is_Some (list_remove x l).
Proof.
  intros Hin. destruct (list_remove_split x l Hin) as (? & ? & _ & _ & ->). eauto.
Qed.

Lemma list_remove_None (x : nat) (l : list nat) :
  x ∉ l -> list_remove x l = None.
Proof.
  induction l as [|y l IH]; intros Hin; [done|]. simpl.
  apply not_elem_of_cons in Hin as [? ?].
  destruct (decide (x = y)); [done|]. by rewrite IH.
Qed.

(** ** Entities: [add] and [remove] *)

(** C6. Adding an entity that is already present leaves the whole world (so
    the entity count and the draw order) unchanged; adding one that is not
    present appends it at the end of the draw order and points its
    back-reference to this Scene; adding the same entity twice is the same
    as adding it once. *)
Theorem add_idempotent_on_duplicates (w : World) (obj : ent_id) :
  (obj ∈ _objects (self w) -> add [obj] w = w) /\
  (obj ∉ _objects (self w) ->
     _objects (self (add [obj] w)) = _objects (self w) ++ [obj] /\
     vector_objs (add [obj] w) !! obj = Some (Vector.mk (Some (self_id w)))) /\
  add [obj; obj] w = add [obj] w /\
  length (_objects (self (add [obj; obj] w)))
    = length (_objects (self (add [obj] w))).
Proof.
  assert (Hpresent : forall w', obj ∈ _objects (self w') -> add [obj] w' = w').
  { intros w' Hin. unfold add, add1. simpl. by destruct (decide _). }
  assert (Hafter : obj ∈ _objects (self (add [obj] w))).
  { unfold add, add1. simpl. destruct (decide _) as [Hin|Hin]; [done|].
    simpl. apply elem_of_app. right. apply list_elem_of_singleton. done. }
  assert (Htwice : add [obj; obj] w = add [obj] w).
  { change (add [obj; obj] w) with (add [obj] (add [obj] w)). by apply Hpresent. }
  split; [apply Hpresent|]. split; [|split; [done|by rewrite Htwice]].
  intros Hnot. unfold add, add1. simpl.
  destruct (decide _) as [Hin|_]; [done|]. simpl. split; [done|].
  apply lookup_insert_eq.
Qed.

(** [add] with several arguments: entities all present change nothing. *)
Lemma add_all_present (w : World) (objects : list ent_id) :
  Forall (fun obj => obj ∈ _objects (self w)) objects -> add objects w = w.
Proof.
  induction 1 as [|obj l Hin _ IH]; [done|].
  unfold add in *. simpl. unfold add1 at 2. by destruct (decide _).
Qed.

(** [add] never introduces a duplicate into the draw order. *)
Lemma add_NoDup (w : World) (objects : list ent_id) :
  NoDup (_objects (self w)) -> NoDup (_objects (self (add objects w))).
Proof.
  revert w. induction objects as [|obj l IH]; intros w Hnd; [done|].
  unfold add in *. simpl. apply IH. unfold add1.
  destruct (decide _) as [Hin|Hin]; [done|]. simpl.
  apply NoDup_app. split; [done|]. split.
  - intros x Hx Hx'. apply list_elem_of_singleton in Hx'. by subst.
  - apply NoDup_singleton.
Qed.

(** C10. Removing an entity that is not in the draw order changes nothing;
    removing one that is there deletes exactly its (first) occurrence, keeps
    every other entity in place, sets its back-reference to None, and leaves
    the animation lists, the Animation objects, the Timeline, every other
    attribute, every other entity, the files and the call log as they
    were. *)
Theorem remove_frame (w : World) (obj : ent_id) :
  (obj ∉ _objects (self w) -> remove obj w = w) /\
  (obj ∈ _objects (self w) ->
     exists l1 l2,
       _objects (self w) = l1 ++ obj :: l2 /\ (obj ∉ l1) /\
       self (remove obj w) = set_objects (l1 ++ l2) (self w) /\
       (NoDup (_objects (self w)) -> obj ∉ l1 ++ l2) /\
       vector_objs (remove obj w) !! obj = Some (Vector.mk None) /\
       (forall o, o <> obj ->
          vector_objs (remove obj w) !! o = vector_objs w !! o) /\
       _animations (self (remove obj w)) = _animations (self w) /\
       _original_animations (self (remove obj w))
         = _original_animations (self w) /\
       _timeline (self (remove obj w)) = _timeline (self w) /\
       animation_objs (remove obj w) = animation_objs w /\
       self_id (remove obj w) = self_id w /\
       framebuffer (remove obj w) = framebuffer w /\
       files (remove obj w) = files w /\
       calls (remove obj w) = calls w).
Proof.
  split; intros Hin; unfold remove; destruct (decide _) as [Hin'|Hin']; try done.
  destruct (list_remove_split _ _ Hin) as (l1 & l2 & Hl & Hl1 & Hrm).
  exists l1, l2. rewrite Hrm. simpl.
  repeat split; try done.
  - intros Hnd Hin2. rewrite Hl in Hnd.
    apply NoDup_app in Hnd as (_ & Hdisj & Hnd2).
    apply NoDup_cons in Hnd2 as [Hl2 _].
    apply elem_of_app in Hin2 as [?|?]; [done|done].
  - apply lookup_insert_eq.
  - intros o Ho. by apply lookup_insert_ne.
Qed.

(** ** Construction *)

Lemma valid_viewport_spec (width height : Z) :
  valid_viewport width height = true <-> (0 < width /\ 0 < height)%Z.
Proof.
  unfold valid_viewport. rewrite andb_true_iff, !Z.ltb_lt. done.
Qed.

(** C7. Construction fails exactly when the configuration is invalid.  A
    dimensionality that is neither 2 nor 3 raises the ValueError of
    [__init__] itself, before anything else is looked at; with a valid
    dimensionality, a viewport size that is invalid (a width or height that
    is not positive) raises the ConfigurationError of the camera and
    renderer constructors.  The failure is the result of the call and
    leaves no Scene behind; a valid configuration gives a Scene that stores
    it. *)
Theorem init_fails_iff_invalid_configuration (dim width height : Z)
    (title : string) :
  ((exists e, __init__ dim width height title = inl e) <->
     (dim <> 2%Z /\ dim <> 3%Z) \/ ~ (0 < width /\ 0 < height)%Z) /\
  (dim <> 2%Z /\ dim <> 3%Z ->
     __init__ dim width height title
       = inl (ValueError "Dimension must be 2 or 3")) /\
  (dim = 2%Z \/ dim = 3%Z -> ~ (0 < width /\ 0 < height)%Z ->
     __init__ dim width height title = inl ConfigurationError) /\
  (forall s, __init__ dim width height title = inr s ->
     _dim s = dim /\ _width s = width /\ _height s = height /\
     _title s = title /\
     _objects s = [] /\ _animations s = [] /\ _original_animations s = [] /\
     _frames s = [] /\ _paused s = false /\ _timeline s = Timeline.new).
Proof.
  pose proof (valid_viewport_spec width height) as Hv.
  unfold __init__, Camera2D_new, Camera3D_new, Renderer2D_new, Renderer3D_new.
  destruct (bool_decide_reflect (dim = 2%Z)) as [->|H2];
    [|destruct (bool_decide_reflect (dim = 3%Z)) as [->|H3]]; simpl;
    [destruct (valid_viewport width height)..|].
  - assert (Hok : (0 < width /\ 0 < height)%Z) by by apply Hv.
    split; [split; [by intros [e He]|intros [[? _]|?]; done]|].
    split; [by intros [? _]|]. split; [done|]. by intros s [= <-].
  - assert (Hbad : ~ (0 < width /\ 0 < height)%Z).
    { intros Hok. apply Hv in Hok. done. }
    split; [split; [eauto|eauto]|].
    split; [by intros [? _]|]. split; [done|]. done.
  - assert (Hok : (0 < width /\ 0 < height)%Z) by by apply Hv.
    split; [split; [by intros [e He]|intros [[_ ?]|?]; done]|].
    split; [by intros [_ ?]|]. split; [done|]. by intros s [= <-].
  - assert (Hbad : ~ (0 < width /\ 0 < height)%Z).
    { intros Hok. apply Hv in Hok. done. }
    split; [split; [eauto|eauto]|].
    split; [by intros [_ ?]|]. split; [done|]. done.
  - split; [split; [eauto|eauto]|]. split; [done|].
    split; [intros [?|?]; done|done].
Qed.

(** ** Export *)

Lemma frame_duration_quot (fps : Z) :
  (0 < fps)%Z -> frame_duration fps = (1000 / fps)%Z.
Proof.
  intros Hpos. destruct fps as [|p|p]; try lia.
  unfold frame_duration, py_int. simpl.
  rewrite Z.quot_div_nonneg by lia. reflexivity.
Qed.

Lemma frame_duration_exact (fps : Z) :
  (0 < fps)%Z -> (fps | 1000)%Z ->
  inject_Z (frame_duration fps) == 1000 / inject_Z fps.
Proof.
  intros Hpos [q Hq]. rewrite frame_duration_quot by done.
  rewrite Hq, Z.div_mul by lia.
  unfold Qeq, Qdiv, inject_Z. destruct fps as [|p|p]; try lia. simpl. lia.
Qed.

Lemma image_save_accepts_pos (fps : Z) :
  (0 < fps)%Z -> image_save_accepts (frame_duration fps) = true.
Proof.
  intros Hpos. rewrite frame_duration_quot by done.
  apply Z.leb_le. apply Z.div_pos; lia.
Qed.

(** C8, as the code has it. With an empty frame buffer the export returns
    at once: nothing is written, nothing is raised and the world is
    unchanged, for every fps.  With at least one frame and fps > 0 it writes
    one looping artifact holding the captured frames in order, at
    int(1000/fps) milliseconds per frame (1000/fps truncated to a whole
    number, exact when fps divides 1000), then reports the path and the
    frame count, and changes nothing else. *)
Theorem save_gif_exports (filename : string) (fps : Z) (w : World) :
  (_frames (self w) = [] -> _save_gif filename fps w = Returned w) /\
  (forall first rest, _frames (self w) = first :: rest -> (0 < fps)%Z ->
     exists w',
       _save_gif filename fps w = Returned w' /\
       files w' = files w ++ [(filename, mkGif first rest (1000 / fps)%Z 0)] /\
       calls w' = calls w ++ [ImageSave filename;
                               PrintSaved filename (S (length rest))] /\
       self w' = self w /\ animation_objs w' = animation_objs w /\
       vector_objs w' = vector_objs w /\ framebuffer w' = framebuffer w /\
       ((fps | 1000)%Z -> inject_Z (1000 / fps)%Z == 1000 / inject_Z fps)).
Proof.
  unfold _save_gif. split.
  - by intros ->.
  - intros first rest -> Hpos.
    destruct (bool_decide_reflect (fps = 0%Z)) as [->|_]; [lia|].
    cbn zeta. rewrite image_save_accepts_pos by done.
    eexists. split; [done|]. simpl.
    rewrite frame_duration_quot by done. repeat split; try done.
    intros Hdiv. rewrite <- frame_duration_quot by done.
    by apply frame_duration_exact.
Qed.

(** ** Frame conditions of playback *)

Lemma playback_refl (w : World) : playback w w.
Proof.
  exists (_animations (self w)), (_timeline (self w)), (_paused (self w)),
    (animation_objs w), [].
  rewrite app_nil_r. destruct w as [? [] ? ? ? ? ?]. reflexivity.
Qed.

Lemma playback_trans (w1 w2 w3 : World) :
  playback w1 w2 -> playback w2 w3 -> playback w1 w3.
Proof.
  intros (a1 & t1 & p1 & o1 & c1 & ->) (a2 & t2 & p2 & o2 & c2 & ->).
  exists a2, t2, p2, o2, (c1 ++ c2). simpl. by rewrite app_assoc.
Qed.

Lemma playback_foldl {A} (f : World -> A -> World) (l : list A) (w : World) :
  (forall w x, playback w (f w x)) -> playback w (foldl f w l).
Proof.
  intros Hf. revert w. induction l as [|x l IH]; intros w; simpl.
  - apply playback_refl.
  - eapply playback_trans; [apply Hf|apply IH].
Qed.

Lemma playback_animation_call f c anim w : playback w (animation_call f c anim w).
Proof.
  exists (_animations (self w)), (_timeline (self w)), (_paused (self w)),
    (alter f anim (animation_objs w)), [c].
  destruct w as [? [] ? ? ? ? ?]. reflexivity.
Qed.

Lemma playback_timeline_call f c w : playback w (timeline_call f c w).
Proof.
  exists (_animations (self w)), (f (_timeline (self w))), (_paused (self w)),
    (animation_objs w), [c].
  destruct w as [? [] ? ? ? ? ?]. reflexivity.
Qed.

Lemma playback_set_animations l w :
  playback w (upd_self (set_animations l) w).
Proof.
  exists l, (_timeline (self w)), (_paused (self w)), (animation_objs w), [].
  rewrite app_nil_r. destruct w as [? [] ? ? ? ? ?]. reflexivity.
Qed.

Lemma playback_set_paused p w : playback w (upd_self (set_paused p) w).
Proof.
  exists (_animations (self w)), (_timeline (self w)), p, (animation_objs w), [].
  rewrite app_nil_r. destruct w as [? [] ? ? ? ? ?]. reflexivity.
Qed.

Lemma playback_log cs w : playback w (log cs w).
Proof.
  exists (_animations (self w)), (_timeline (self w)), (_paused (self w)),
    (animation_objs w), cs.
  destruct w as [? [] ? ? ? ? ?]. reflexivity.
Qed.

Lemma playback_restore1 w anim : playback w (restore1 w anim).
Proof.
  unfold restore1. destruct (decide _); [apply playback_refl|].
  eapply playback_trans; [apply playback_animation_call|].
  apply (playback_set_animations _ (anim_reset w anim)).
Qed.

Lemma playback_active_remove w anim : playback w (active_remove w anim).
Proof.
  unfold active_remove. destruct (list_remove _ _); [|apply playback_refl].
  eapply playback_trans; [apply playback_set_animations|apply playback_log].
Qed.

Lemma playback_reset_active w : playback w (reset_active w).
Proof. apply playback_foldl. intros. apply playback_animation_call. Qed.

Lemma playback_restore_missing w : playback w (restore_missing w).
Proof. apply playback_foldl. apply playback_restore1. Qed.

Lemma playback_step dt w : playback w (_step dt w).
Proof.
  unfold _step. eapply playback_trans; [apply playback_timeline_call|].
  apply playback_foldl. intros. apply playback_animation_call.
Qed.

Lemma playback_replay w : playback w (_replay w).
Proof.
  unfold _replay.
  eapply playback_trans; [apply playback_reset_active|].
  eapply playback_trans; [apply playback_restore_missing|].
  eapply playback_trans; [apply playback_timeline_call|].
  eapply playback_trans; [apply playback_timeline_call|].
  apply playback_set_paused.
Qed.

Lemma playback_step_backward w : playback w (_step_backward w).
Proof.
  unfold _step_backward.
  eapply playback_trans; [apply playback_reset_active|].
  eapply playback_trans; [apply playback_restore_missing|].
  eapply playback_trans; [apply playback_timeline_call|].
  eapply playback_trans; [|apply playback_set_paused].
  destruct (Qltb _ _); [apply playback_step|apply playback_refl].
Qed.

Lemma playback_update1 dt st anim : playback st.1 (update1 dt st anim).1.
Proof. apply playback_animation_call. Qed.

Lemma playback_update1_fold dt l st :
  playback st.1 (foldl (update1 dt) st l).1.
Proof.
  revert st. induction l as [|a l IH]; intros st; simpl; [apply playback_refl|].
  eapply playback_trans; [apply (playback_update1 dt st a)|apply IH].
Qed.

Lemma playback_update dt w : playback w (_update dt w).
Proof.
  unfold _update. destruct (_paused (self w)); [apply playback_refl|].
  cbv zeta.
  pose proof (playback_timeline_call (Timeline.update dt) (TimelineUpdate dt) w)
    as H1.
  remember (timeline_call (Timeline.update dt) (TimelineUpdate dt) w) as w1.
  pose proof (playback_update1_fold dt (_animations (self w1)) (w1, [])) as H2.
  destruct (foldl (update1 dt) (w1, []) (_animations (self w1))) as [w2 fin].
  eapply playback_trans; [apply H1|].
  eapply playback_trans; [apply H2|].
  apply playback_foldl. apply playback_active_remove.
Qed.

Lemma playback_frame (w w' : World) :
  playback w w' ->
  self_id w' = self_id w /\ vector_objs w' = vector_objs w /\
  framebuffer w' = framebuffer w /\ files w' = files w /\
  _frames (self w') = _frames (self w) /\
  _recording (self w') = _recording (self w) /\
  _objects (self w') = _objects (self w) /\
  _original_animations (self w') = _original_animations (self w) /\
  _dim (self w') = _dim (self w) /\ _width (self w') = _width (self w) /\
  _height (self w') = _height (self w) /\
  _show_grid (self w') = _show_grid (self w) /\
  _step_size (self w') = _step_size (self w).
Proof. intros (? & ? & ? & ? & ? & ->). simpl. repeat split. Qed.

(** ** Frame conditions of rendering and capture *)

Lemma render_issue (w : World) :
  exists pass, _render w = issue pass w.
Proof.
  unfold _render, _render_2d, _render_3d. destruct (bool_decide _); eauto.
Qed.

Lemma render_frame (w : World) :
  self (_render w) = self w /\ animation_objs (_render w) = animation_objs w /\
  vector_objs (_render w) = vector_objs w /\ files (_render w) = files w /\
  self_id (_render w) = self_id w.
Proof. destruct (render_issue w) as [pass ->]. done. Qed.

Lemma capture_frame_recording (w : World) :
  _recording (self w) = true ->
  _frames (self (_capture_frame w))
    = _frames (self w)
        ++ [mkFrame (_width (self w), _height (self w)) (framebuffer w)] /\
  _recording (self (_capture_frame w)) = true /\
  animation_objs (_capture_frame w) = animation_objs w /\
  _animations (self (_capture_frame w)) = _animations (self w) /\
  _timeline (self (_capture_frame w)) = _timeline (self w) /\
  _paused (self (_capture_frame w)) = _paused (self w) /\
  files (_capture_frame w) = files w.
Proof. intros H. unfold _capture_frame. rewrite H. done. Qed.

Lemma capture_iteration_frames (frame_time : Q) (w : World) :
  _recording (self w) = true ->
  exists image,
    _frames (self (capture_iteration frame_time w)) = _frames (self w) ++ [image] /\
    _recording (self (capture_iteration frame_time w)) = true /\
    files (capture_iteration frame_time w) = files w.
Proof.
  intros Hrec. unfold capture_iteration.
  set (w1 := _update frame_time (log [EventPump] w)).
  assert (Hpb : playback w w1).
  { eapply playback_trans; [apply (playback_log [EventPump])|apply playback_update]. }
  apply playback_frame in Hpb as (_ & _ & _ & Hfiles & Hfr & Hrc & _).
  destruct (render_frame w1) as (Hself & _ & _ & Hfiles2 & _).
  destruct (capture_frame_recording (_render w1)) as (H1 & H2 & _ & _ & _ & _ & H3).
  { rewrite Hself. congruence. }
  eexists. rewrite H1, H2, H3, Hself, Hfr, Hfiles2, Hfiles. done.
Qed.

(** The trailing loop renders and captures, and advances nothing. *)
Lemma still_iteration_frame (w : World) :
  _recording (self w) = true ->
  exists image,
    _frames (self (still_iteration w)) = _frames (self w) ++ [image] /\
    _recording (self (still_iteration w)) = true /\
    files (still_iteration w) = files w /\
    animation_objs (still_iteration w) = animation_objs w /\
    _animations (self (still_iteration w)) = _animations (self w) /\
    _timeline (self (still_iteration w)) = _timeline (self w).
Proof.
  intros Hrec. unfold still_iteration.
  set (w1 := log [EventPump] w).
  destruct (render_frame w1) as (Hself & Hobjs & _ & Hfiles & _).
  destruct (capture_frame_recording (_render w1)) as (H1 & H2 & H3 & H4 & H5 & _ & H6).
  { by rewrite Hself. }
  eexists. rewrite H1, H2, H3, H4, H5, H6, Hself, Hobjs, Hfiles. done.
Qed.

Lemma iter_capture_frames (frame_time : Q) (n : nat) (w : World) :
  _recording (self w) = true ->
  exists images,
    length images = n /\
    _frames (self (Nat.iter n (capture_iteration frame_time) w))
      = _frames (self w) ++ images /\
    _recording (self (Nat.iter n (capture_iteration frame_time) w)) = true /\
    files (Nat.iter n (capture_iteration frame_time) w) = files w.
Proof.
  intros Hrec. induction n as [|n (images & Hlen & Hfr & Hrc & Hfi)]; simpl.
  - exists []. by rewrite app_nil_r.
  - destruct (capture_iteration_frames frame_time _ Hrc) as (image & H1 & H2 & H3).
    exists (images ++ [image]). rewrite H1, H2, H3, Hfr, Hfi, length_app, Hlen.
    simpl. rewrite app_assoc. repeat split; [lia|done..].
Qed.

Lemma iter_still_frames (n : nat) (w : World) :
  _recording (self w) = true ->
  exists images,
    length images = n /\
    _frames (self (Nat.iter n still_iteration w)) = _frames (self w) ++ images /\
    _recording (self (Nat.iter n still_iteration w)) = true /\
    files (Nat.iter n still_iteration w) = files w /\
    animation_objs (Nat.iter n still_iteration w) = animation_objs w /\
    _animations (self (Nat.iter n still_iteration w)) = _animations (self w) /\
    _timeline (self (Nat.iter n still_iteration w)) = _timeline (self w).
Proof.
  intros Hrec.
  induction n as [|n (images & Hlen & Hfr & Hrc & Hfi & Ho & Ha & Ht)]; simpl.
  - exists []. by rewrite app_nil_r.
  - destruct (still_iteration_frame _ Hrc) as (image & H1 & H2 & H3 & H4 & H5 & H6).
    exists (images ++ [image]).
    rewrite H1, H2, H3, H4, H5, H6, Hfr, Hfi, Ho, Ha, Ht, length_app, Hlen.
    simpl. rewrite app_assoc. repeat split; [lia|done..].
Qed.

Lemma begin_capture_frame (w : World) :
  _recording (self (begin_capture w)) = true /\
  _frames (self (begin_capture w)) = [] /\
  files (begin_capture w) = files w /\
  _animations (self (begin_capture w)) = _animations (self w) /\
  animation_objs (begin_capture w) = animation_objs w /\
  _paused (self (begin_capture w)) = _paused (self w) /\
  _timeline (self (begin_capture w)) = Timeline.play (_timeline (self w)).
Proof. done. Qed.

Lemma end_capture_result (filename : string) (fps : Z) (w0 w : World) :
  (0 < fps)%Z -> files w = files w0 ->
  exists w', end_capture filename fps w = Returned w' /\
    _frames (self w') = _frames (self w) /\
    session_result filename fps (length (_frames (self w))) w0 w'.
Proof.
  intros Hfps Hfiles. unfold end_capture, _save_gif, session_result.
  destruct (_frames (self w)) as [|first rest] eqn:Hfr.
  - eexists. split; [done|]. simpl. rewrite Hfr. done.
  - destruct (bool_decide_reflect (fps = 0%Z)); [lia|].
    cbn zeta. rewrite image_save_accepts_pos by done.
    eexists. split; [done|]. simpl. rewrite Hfr, Hfiles. done.
Qed.

(** ** The capture loop of [record_play] *)

Lemma capture_loop_continue (frame_time : Q) (frame_count : nat) (w : World) :
  _animations (self w) <> [] -> (frame_count < max_frames)%nat ->
  capture_until_complete frame_time frame_count w
  = capture_until_complete frame_time (S frame_count)
      (capture_iteration frame_time w).
Proof.
  intros Ha Hc. rewrite capture_until_complete_equation_1.
  destruct (decide _) as [?|Hn]; [by simp capture_until_complete|].
  exfalso. apply Hn. done.
Qed.

Lemma capture_loop_exit (frame_time : Q) (frame_count : nat) (w : World) :
  _animations (self w) = [] \/ (max_frames <= frame_count)%nat ->
  capture_until_complete frame_time frame_count w = (frame_count, w).
Proof.
  intros Hex. rewrite capture_until_complete_equation_1.
  destruct (decide _) as [[Ha Hc]|?]; [|by simp capture_until_complete].
  exfalso. destruct Hex; [done|lia].
Qed.

(** The loop runs [n] iterations of pump/update/render/capture with the
    same [frame_time], stops at the cap or at the first empty active list,
    and never runs an iteration on an empty active list. *)
Lemma capture_loop_spec (frame_time : Q) (frame_count : nat) (w : World) :
  (frame_count <= max_frames)%nat ->
  exists n,
    capture_until_complete frame_time frame_count w
      = ((frame_count + n)%nat, Nat.iter n (capture_iteration frame_time) w) /\
    (frame_count + n <= max_frames)%nat /\
    (_animations (self (Nat.iter n (capture_iteration frame_time) w)) = []
     \/ (frame_count + n)%nat = max_frames) /\
    (forall i, (i < n)%nat ->
       _animations (self (Nat.iter i (capture_iteration frame_time) w)) <> []).
Proof.
  remember (max_frames - frame_count)%nat as k eqn:Hk.
  revert frame_count w Hk.
  induction k as [|k IH]; intros fc w Hk Hle.
  - exists 0%nat. rewrite capture_loop_exit by (right; lia).
    rewrite Nat.add_0_r. simpl. repeat split; [done|right; lia|lia].
  - destruct (decide (_animations (self w) = [])) as [Hnil|Hne].
    + exists 0%nat. rewrite capture_loop_exit by (by left).
      rewrite Nat.add_0_r. simpl. repeat split; [done|by left|lia].
    + rewrite capture_loop_continue by (done || lia).
      destruct (IH (S fc) (capture_iteration frame_time w)) as (n & Heq & Hb & Hend & Hrun);
        [lia|lia|].
      exists (S n). rewrite Heq, Nat.iter_succ_r.
      replace (fc + S n)%nat with (S fc + n)%nat by lia.
      repeat split; [done|done|].
      intros [|i] Hi; [done|]. rewrite Nat.iter_succ_r. apply Hrun. lia.
Qed.

(** When the Scene is not paused, [_update] hands [dt] to the Timeline. *)

Lemma same_clock_refl w : same_clock w w.
Proof. done. Qed.

Lemma same_clock_trans w1 w2 w3 :
  same_clock w1 w2 -> same_clock w2 w3 -> same_clock w1 w3.
Proof. intros [? ?] [? ?]. split; congruence. Qed.








(** C9, as the code has it. For fps > 0 both capture sessions return with
    recording switched off and with every captured frame still in the
    Scene's buffer: the buffer holds exactly the frames that were written to
    the artifact.  The buffer is emptied only by the prologue of the next
    session. *)
Theorem capture_buffer_retained (filename : string) (duration : Q) (fps : Z)
    (w : World) :
  (0 < fps)%Z ->
  (exists w',
     record filename duration fps w = Returned w' /\
     session_result filename fps
       (py_range (total_frames duration fps)) w w') /\
  (exists n w',
     record_play filename fps w = Returned w' /\ (n <= max_frames)%nat /\
     session_result filename fps (n + py_range fps) w w') /\
  _frames (self (begin_capture w)) = [].
Proof.
  intros Hfps.
  destruct (begin_capture_frame w) as (Hrec & Hfr0 & Hfi0 & _).
  split; [|split; [|done]].
  - destruct (iter_capture_frames (1 / inject_Z fps)
                (py_range (total_frames duration fps))
                (begin_capture w) Hrec) as (imgs & Hlen & Hfr & Hrc & Hfi).
    destruct (end_capture_result filename fps w
                (Nat.iter (py_range (total_frames duration fps))
                   (capture_iteration (1 / inject_Z fps)) (begin_capture w)))
      as (w' & Hret & _ & Hres); [lia|congruence|].
    exists w'. split.
    + unfold record. destruct (bool_decide_reflect (fps = 0%Z)); [lia|]. done.
    + rewrite Hfr, Hfr0 in Hres. simpl in Hres. by rewrite Hlen in Hres.
  - destruct (capture_loop_spec (1 / inject_Z fps) 0 (begin_capture w))
      as (n & Hloop & Hcap & _); [unfold max_frames; lia|].
    simpl in Hloop, Hcap.
    destruct (iter_capture_frames (1 / inject_Z fps) n (begin_capture w) Hrec)
      as (imgs & Hlen & Hfr & Hrc & Hfi).
    destruct (iter_still_frames (py_range fps) _ Hrc)
      as (imgs2 & Hlen2 & Hfr2 & Hrc2 & Hfi2 & _).
    destruct (end_capture_result filename fps w
                (Nat.iter (py_range fps) still_iteration
                   (Nat.iter n (capture_iteration (1 / inject_Z fps))
                      (begin_capture w))))
      as (w' & Hret & _ & Hres); [lia|congruence|].
    exists n, w'. split; [|split; [done|]].
    + unfold record_play. destruct (bool_decide_reflect (fps = 0%Z)); [lia|].
      cbn zeta. rewrite Hloop. done.
    + rewrite Hfr2, Hfr, Hfr0 in Hres. simpl in Hres.
      by rewrite length_app, Hlen, Hlen2 in Hres.
Qed.

(** ** Loops over Animation objects *)

Lemma foldl_self (g : World -> anim_id -> World) (l : list anim_id) (w : World) :
  (forall w x, self (g w x) = self w) -> self (foldl g w l) = self w.
Proof.
  intros Hg. revert w. induction l as [|x l IH]; intros w; simpl; [done|].
  by rewrite IH, Hg.
Qed.

Lemma foldl_calls (g : World -> anim_id -> World) (c : anim_id -> Call)
    (l : list anim_id) (w : World) :
  (forall w x, calls (g w x) = calls w ++ [c x]) ->
  calls (foldl g w l) = calls w ++ map c l.
Proof.
  intros Hg. revert w. induction l as [|x l IH]; intros w; simpl.
  - by rewrite app_nil_r.
  - rewrite IH, Hg, <- app_assoc. done.
Qed.

Lemma foldl_objs_notin (g : World -> anim_id -> World) (l : list anim_id)
    (w : World) (a : anim_id) :
  (forall w x, x <> a -> animation_objs (g w x) !! a = animation_objs w !! a) ->
  a ∉ l -> animation_objs (foldl g w l) !! a = animation_objs w !! a.
Proof.
  intros Hg. revert w. induction l as [|x l IH]; intros w Hnot; simpl; [done|].
  apply not_elem_of_cons in Hnot as [Hne Hnot]. rewrite IH by done.
  apply Hg. congruence.
Qed.

Lemma animation_call_lookup_ne f c x w a :
  x <> a ->
  animation_objs (animation_call f c x w) !! a = animation_objs w !! a.
Proof. intros Hne. simpl. by apply lookup_alter_ne. Qed.

Lemma animation_call_lookup_eq f c x w :
  animation_objs (animation_call f c x w) !! x = f <$> animation_objs w !! x.
Proof. simpl. apply lookup_alter_eq. Qed.

(** Resetting a list of animations resets exactly its members. *)
Lemma reset_all_lookup (l : list anim_id) (w : World) (a : anim_id) :
  animation_objs (foldl anim_reset w l) !! a
  = if decide (a ∈ l) then Animation.reset <$> animation_objs w !! a
    else animation_objs w !! a.
Proof.
  revert w. induction l as [|x l IH]; intros w; simpl; [done|].
  rewrite IH. destruct (decide (x = a)) as [->|Hne].
  - unfold anim_reset at 1 2. rewrite animation_call_lookup_eq.
    destruct (decide (a ∈ l)), (decide (a ∈ a :: l)) as [|Hn];
      try done; try (exfalso; apply Hn; by left).
    by destruct (animation_objs w !! a).
  - unfold anim_reset at 1 2. rewrite animation_call_lookup_ne by done.
    destruct (decide (a ∈ l)) as [Hin|Hin], (decide (a ∈ x :: l)) as [Hin'|Hin'];
      try done.
    + exfalso. apply Hin'. by right.
    + exfalso. apply elem_of_cons in Hin' as [?|?]; [congruence|done].
Qed.

Lemma advance_all_self dt l w : self (foldl (anim_update dt) w l) = self w.
Proof. by apply foldl_self. Qed.

Lemma advance_all_calls dt l w :
  calls (foldl (anim_update dt) w l)
  = calls w ++ map (fun a => AnimationUpdate a dt) l.
Proof. by apply (foldl_calls _ (fun a => AnimationUpdate a dt)). Qed.

Lemma advance_all_notin dt l w a :
  a ∉ l ->
  animation_objs (foldl (anim_update dt) w l) !! a = animation_objs w !! a.
Proof.
  apply foldl_objs_notin. intros w' x Hne. by apply animation_call_lookup_ne.
Qed.

(** An animation listed once is advanced once. *)
Lemma advance_all_once dt l1 l2 w a :
  a ∉ l1 -> a ∉ l2 ->
  animation_objs (foldl (anim_update dt) w (l1 ++ a :: l2)) !! a
  = Animation.update dt <$> animation_objs w !! a.
Proof.
  intros H1 H2. rewrite foldl_app. simpl.
  rewrite advance_all_notin by done.
  unfold anim_update at 1. rewrite animation_call_lookup_eq.
  by rewrite advance_all_notin.
Qed.

Lemma advance_all_frame dt l w :
  self_id (foldl (anim_update dt) w l) = self_id w /\
  vector_objs (foldl (anim_update dt) w l) = vector_objs w /\
  framebuffer (foldl (anim_update dt) w l) = framebuffer w /\
  files (foldl (anim_update dt) w l) = files w.
Proof.
  revert w. induction l as [|x l IH]; intros w; simpl; [done|].
  destruct (IH (anim_update dt w x)) as (-> & -> & -> & ->). done.
Qed.

(** The first loop of [_update]: its world is that of advancing every
    animation in turn. *)
Lemma update1_fold_world dt l w acc :
  (foldl (update1 dt) (w, acc) l).1 = foldl (anim_update dt) w l.
Proof.
  revert w acc. induction l as [|x l IH]; intros w acc; simpl; [done|].
  unfold update1 at 2. simpl. apply IH.
Qed.

(** Its list of finished animations is drawn, in order, from the list
    it iterates over. *)
Lemma update1_fold_finished dt l w acc :
  exists fin, (foldl (update1 dt) (w, acc) l).2 = acc ++ fin /\ sublist fin l.
Proof.
  revert w acc. induction l as [|x l IH]; intros w acc; simpl.
  - exists []. by rewrite app_nil_r.
  - unfold update1 at 2. simpl.
    destruct (anim_is_finished (anim_update dt w x) x).
    + destruct (IH (anim_update dt w x) (acc ++ [x])) as (fin & -> & Hsub).
      exists (x :: fin). rewrite <- app_assoc. split; [done|].
      by apply sublist_skip.
    + destruct (IH (anim_update dt w x) acc) as (fin & -> & Hsub).
      exists fin. split; [done|]. by apply sublist_cons.
Qed.

(** Without duplicates, the finished list is the filter of the active list
    by completion after the updates. *)
Lemma update1_fold_finished_NoDup dt l w acc :
  NoDup l ->
  (foldl (update1 dt) (w, acc) l).2
  = acc ++ List.filter (anim_is_finished (foldl (anim_update dt) w l)) l.
Proof.
  revert w acc. induction l as [|x l IH]; intros w acc Hnd; simpl.
  - by rewrite app_nil_r.
  - apply NoDup_cons in Hnd as [Hx Hnd].
    unfold update1 at 2. simpl.
    assert (Hfin : anim_is_finished (foldl (anim_update dt) (anim_update dt w x) l) x
                   = anim_is_finished (anim_update dt w x) x).
    { unfold anim_is_finished. by rewrite advance_all_notin. }
    rewrite Hfin, IH by done.
    destruct (anim_is_finished (anim_update dt w x) x); [|done].
    by rewrite <- app_assoc.
Qed.

(** ** Removing the finished animations *)

Lemma sublist_remove_first (x : nat) (fin l1 l2 : list nat) :
  x ∉ l1 -> sublist (x :: fin) (l1 ++ x :: l2) -> sublist fin (l1 ++ l2).
Proof.
  induction l1 as [|y l1 IH]; simpl; intros Hx Hsub.
  - inversion Hsub as [|? ? ? Hs|? ? ? Hs]; subst; [done|].
    etrans; [|exact Hs]. by apply sublist_cons.
  - apply not_elem_of_cons in Hx as [Hne Hx].
    inversion Hsub as [|? ? ? Hs|? ? ? Hs]; subst; [done|].
    apply sublist_cons. by apply IH.
Qed.

Lemma filter_iff_in {A} (P1 P2 : A -> Prop)
    `{!forall x, Decision (P1 x), !forall x, Decision (P2 x)} (l : list A) :
  (forall x, x ∈ l -> P1 x <-> P2 x) -> filter P1 l = filter P2 l.
Proof.
  induction l as [|a l IH]; intros Hiff; [done|].
  assert (Hl : filter P1 l = filter P2 l).
  { apply IH. intros x Hx. apply Hiff. by right. }
  destruct (decide (P1 a)) as [Ha|Ha].
  - rewrite !filter_cons_True, Hl; [done| |done]. apply Hiff; [by left|done].
  - rewrite !filter_cons_False, Hl; [done| |done].
    intros Ha2. apply Ha, Hiff; [by left|done].
Qed.

Lemma filter_False_nil {A} (P : A -> Prop) `{!forall x, Decision (P x)} (l : list A) :
  (forall x, x ∈ l -> ~ P x) -> filter P l = [].
Proof.
  induction l as [|a l IH]; intros HP; [done|].
  rewrite filter_cons_False by (apply HP; by left).
  apply IH. intros x Hx. apply HP. by right.
Qed.

Lemma filter_True_id {A} (P : A -> Prop) `{!forall x, Decision (P x)} (l : list A) :
  (forall x, x ∈ l -> P x) -> filter P l = l.
Proof.
  induction l as [|a l IH]; intros HP; [done|].
  rewrite filter_cons_True by (apply HP; by left).
  f_equal. apply IH. intros x Hx. apply HP. by right.
Qed.

Lemma list_remove_NoDup (x : nat) (l : list nat) :
  NoDup l -> x ∈ l -> list_remove x l = Some (filter (fun y => y <> x) l).
Proof.
  induction l as [|y l IH]; intros Hnd Hin; [by apply elem_of_nil in Hin|].
  apply NoDup_cons in Hnd as [Hy Hnd]. simpl.
  destruct (decide (x = y)) as [->|Hne].
  - rewrite filter_cons_False by (intros ?; done).
    f_equal. symmetry. apply filter_True_id.
    intros z Hz ->. done.
  - apply elem_of_cons in Hin as [?|Hin]; [done|].
    rewrite IH by done. simpl. by rewrite filter_cons_True by congruence.
Qed.

Lemma List_filter_stdpp {A} (f : A -> bool) (l : list A) :
  List.filter f l = filter (fun x => f x = true) l.
Proof.
  induction l as [|x l IH]; [done|]. simpl.
  destruct (f x) eqn:Hf.
  - rewrite filter_cons_True by done. by f_equal.
  - rewrite filter_cons_False by (rewrite Hf; done). done.
Qed.

(** Every removal of the second loop of [_update] finds its animation:
    the log gains one [ActiveRemove] per entry of [fin]. *)
Lemma active_remove_all (fin : list anim_id) (w : World) :
  sublist fin (_animations (self w)) ->
  exists l',
    foldl active_remove w fin
      = log (map ActiveRemove fin) (upd_self (set_animations l') w) /\
    sublist l' (_animations (self w)) /\
    (NoDup (_animations (self w)) ->
       l' = filter (fun a => a ∉ fin) (_animations (self w))).
Proof.
  revert w. induction fin as [|x fin IH]; intros w Hsub.
  - exists (_animations (self w)). simpl. split; [|split; [done|]].
    + destruct w as [? [] ? ? ? ? ?]. unfold log, upd_self, set_self. simpl.
      by rewrite app_nil_r.
    + intros _. symmetry. apply filter_True_id.
      intros y _. apply not_elem_of_nil.
  - assert (Hin : x ∈ _animations (self w)).
    { eapply sublist_subseteq; [exact Hsub|]. by left. }
    destruct (list_remove_split _ _ Hin) as (l1 & l2 & Hl & Hl1 & Hrm).
    simpl. unfold active_remove at 2. rewrite Hrm.
    set (w1 := log [ActiveRemove x] (upd_self (set_animations (l1 ++ l2)) w)).
    destruct (IH w1) as (l' & Heq & Hsub' & Hnd').
    { simpl. rewrite Hl in Hsub. by eapply sublist_remove_first. }
    exists l'. split; [|split].
    + rewrite Heq. unfold w1, log, upd_self, set_self. simpl.
      by rewrite <- app_assoc.
    + etrans; [exact Hsub'|]. simpl. rewrite Hl.
      apply sublist_app; [done|]. by apply sublist_cons.
    + intros Hnd. rewrite Hnd'.
      * simpl. rewrite list_remove_NoDup in Hrm by done.
        injection Hrm as <-. rewrite list_filter_filter.
        apply list_filter_iff. intros y. rewrite elem_of_cons. tauto.
      * simpl. rewrite Hl in Hnd. apply NoDup_app in Hnd as (Hn1 & Hd & Hn2).
        apply NoDup_cons in Hn2 as [Hx2 Hn2].
        apply NoDup_app. split; [done|]. split; [|done].
        intros y Hy1 Hy2. apply (Hd y Hy1). by right.
Qed.

(** The shape of one unpaused [_update]. *)
Lemma update_unfold (dt : Q) (w : World) :
  _paused (self w) = false ->
  let w2 := foldl (anim_update dt)
              (timeline_call (Timeline.update dt) (TimelineUpdate dt) w)
              (_animations (self w)) in
  exists fin l',
    sublist fin (_animations (self w)) /\
    sublist l' (_animations (self w)) /\
    _update dt w = log (map ActiveRemove fin) (upd_self (set_animations l') w2) /\
    (NoDup (_animations (self w)) ->
       fin = filter (fun a => anim_is_finished w2 a = true) (_animations (self w)) /\
       l' = filter (fun a => anim_is_finished w2 a = false) (_animations (self w))).
Proof.
  intros Hp w2. unfold _update. rewrite Hp. cbv zeta.
  set (w1 := timeline_call (Timeline.update dt) (TimelineUpdate dt) w) in *.
  change (_animations (self w1)) with (_animations (self w)).
  pose proof (update1_fold_world dt (_animations (self w)) w1 []) as Hw.
  destruct (update1_fold_finished dt (_animations (self w)) w1 [])
    as (fin & Hfin & Hsub).
  pose proof (update1_fold_finished_NoDup dt (_animations (self w)) w1 []) as Hnd.
  destruct (foldl (update1 dt) (w1, []) (_animations (self w))) as [w2' fin'].
  simpl in Hw, Hfin, Hnd. subst w2' fin'. fold w2 in Hnd |- *.
  assert (Hact : _animations (self w2) = _animations (self w)).
  { unfold w2. by rewrite advance_all_self. }
  destruct (active_remove_all fin w2) as (l' & Heq & Hsub' & Hl').
  { by rewrite Hact. }
  exists fin, l'. rewrite Hact in Hsub', Hl'. repeat split; try done.
  - rewrite Hnd by done. apply List_filter_stdpp.
  - rewrite Hl' by done. apply filter_iff_in. intros a Ha.
    rewrite (Hnd H), List_filter_stdpp, list_elem_of_filter.
    destruct (anim_is_finished w2 a); split; try done.
    + intros Hnot. exfalso. by apply Hnot.
    + intros _ [? _]. done.
Qed.

(** ** Order of effects within a frame *)

Lemma render_current_pass (w : World) : _render w = issue (current_pass w) w.
Proof.
  unfold _render, current_pass, _render_2d, _render_3d.
  by destruct (bool_decide _).
Qed.

Lemma step_unfold (dt : Q) (w : World) :
  calls (_step dt w)
    = calls w ++ [TimelineUpdate dt]
        ++ map (fun a => AnimationUpdate a dt) (_animations (self w)) /\
  _animations (self (_step dt w)) = _animations (self w) /\
  _timeline (self (_step dt w)) = Timeline.update dt (_timeline (self w)) /\
  _paused (self (_step dt w)) = _paused (self w).
Proof.
  unfold _step. cbv zeta.
  change (_animations (self (timeline_call _ _ w))) with (_animations (self w)).
  rewrite advance_all_calls, advance_all_self. simpl. by rewrite <- app_assoc.
Qed.

(** C5, as the code has it. One unpaused [_update] followed by [_render]
    logs, in this order: the Timeline update, one update per active
    animation in list order, the removals of finished animations, and only
    then the calls of the render pass; the pass is computed from the world
    all of these have produced, and (when no animation is listed twice) that
    world has no finished animation left in its active list.  A paused
    [_update] does nothing.  The explicit [_step] followed by [_render]
    logs the Timeline update, then one update per active animation, then the
    render pass; it removes nothing from the active list, so this pass can
    see finished animations. *)
Theorem frame_effects_ordered (dt : Q) (w : World) :
  (_paused (self w) = false ->
     exists fin,
       sublist fin (_animations (self w)) /\
       calls (_render (_update dt w))
         = calls w ++ [TimelineUpdate dt]
             ++ map (fun a => AnimationUpdate a dt) (_animations (self w))
             ++ map ActiveRemove fin
             ++ map Render (current_pass (_update dt w)) /\
       (NoDup (_animations (self w)) ->
          fin = filter (fun a => anim_is_finished (_update dt w) a = true)
                  (_animations (self w)) /\
          _animations (self (_update dt w))
            = filter (fun a => anim_is_finished (_update dt w) a = false)
                (_animations (self w)) /\
          forall a, a ∈ _animations (self (_update dt w)) ->
                    anim_is_finished (_update dt w) a = false)) /\
  (_paused (self w) = true -> _update dt w = w) /\
  calls (_render (_step dt w))
    = calls w ++ [TimelineUpdate dt]
        ++ map (fun a => AnimationUpdate a dt) (_animations (self w))
        ++ map Render (current_pass (_step dt w)) /\
  _animations (self (_step dt w)) = _animations (self w) /\
  (forall w', self (_render w') = self w' /\
              animation_objs (_render w') = animation_objs w' /\
              framebuffer (_render w') = current_pass w').
Proof.
  split; [|split; [|split; [|split]]].
  - intros Hp. destruct (update_unfold dt w Hp) as (fin & l' & Hsub & _ & Heq & Hnd).
    exists fin. split; [done|]. split.
    + rewrite render_current_pass. simpl. rewrite Heq at 1. simpl.
      rewrite advance_all_calls. simpl. by rewrite <- !app_assoc.
    + intros Hno. destruct (Hnd Hno) as [Hfin Hl'].
      assert (Hfinished : forall a,
                anim_is_finished (_update dt w) a
                = anim_is_finished
                    (foldl (anim_update dt)
                       (timeline_call (Timeline.update dt) (TimelineUpdate dt) w)
                       (_animations (self w))) a).
      { intros a. rewrite Heq. done. }
      assert (Hact : _animations (self (_update dt w)) = l').
      { rewrite Heq. done. }
      split; [|split].
      * rewrite Hfin. apply list_filter_iff. intros a. by rewrite Hfinished.
      * rewrite Hact, Hl'. apply list_filter_iff. intros a. by rewrite Hfinished.
      * intros a. rewrite Hact, Hl', list_elem_of_filter, Hfinished. by intros [? _].
  - intros Hp. unfold _update. by rewrite Hp.
  - rewrite render_current_pass. simpl.
    destruct (step_unfold dt w) as (-> & _). by rewrite <- !app_assoc.
  - apply step_unfold.
  - intros w'. rewrite render_current_pass. done.
Qed.

(** ** Render dispatch *)

Lemma targets_entity_bool (w : World) (obj : ent_id) (anim : anim_id) :
  match animation_objs w !! anim with
  | Some a => Animation.targets obj a
  | None => false
  end = true <-> targets_entity w obj anim.
Proof.
  unfold targets_entity, Animation.targets.
  destruct (animation_objs w !! anim) as [a|]; split.
  - destruct (Animation._kind a) as [e|] eqn:Hk; [|done].
    intros ->%bool_decide_eq_true. eauto.
  - intros (a' & [= <-] & ->). by apply bool_decide_eq_true.
  - done.
  - intros (? & ? & _). done.
Qed.

Lemma find_first {A} (f : A -> bool) (l : list A) (x : A) :
  List.find f l = Some x <->
  exists l1 l2, l = l1 ++ x :: l2 /\ f x = true /\ forall b, b ∈ l1 -> f b = false.
Proof.
  induction l as [|y l IH]; simpl.
  - split; [done|]. intros (l1 & l2 & Hl & _). by destruct l1.
  - destruct (f y) eqn:Hy.
    + split.
      * intros [= ->]. exists [], l. split; [done|]. split; [done|].
        intros b Hb. by apply elem_of_nil in Hb.
      * intros ([|z l1] & l2 & Hl & Hx & Hl1).
        -- by injection Hl as -> _.
        -- injection Hl as -> _. rewrite Hl1 in Hy; [done|by left].
    + rewrite IH. split.
      * intros (l1 & l2 & -> & Hx & Hl1). exists (y :: l1), l2.
        split; [done|]. split; [done|].
        intros b [->|Hb]%elem_of_cons; [done|by apply Hl1].
      * intros ([|z l1] & l2 & Hl & Hx & Hl1).
        -- injection Hl as -> _. congruence.
        -- injection Hl as -> ->. exists l1, l2. split; [done|]. split; [done|].
           intros b Hb. apply Hl1. by right.
Qed.

Lemma active_anim_first (w : World) (obj : ent_id) (anim : anim_id) :
  active_anim w obj = Some anim <-> first_target w obj anim.
Proof.
  unfold active_anim, first_target. rewrite find_first.
  split; intros (l1 & l2 & Hl & Hx & Hl1); exists l1, l2; (split; [done|]).
  - split; [by apply targets_entity_bool|].
    intros b Hb Hb'. apply targets_entity_bool in Hb'.
    rewrite (Hl1 b Hb) in Hb'. done.
  - split; [by apply targets_entity_bool|].
    intros b Hb. specialize (Hl1 b Hb).
    rewrite <- targets_entity_bool in Hl1.
    by apply not_true_is_false.
Qed.

Lemma active_anim_None (w : World) (obj : ent_id) :
  active_anim w obj = None <->
  forall b, b ∈ _animations (self w) -> ~ targets_entity w obj b.
Proof.
  unfold active_anim. split.
  - intros Hnone b Hb Hb'. apply targets_entity_bool in Hb'.
    apply list_elem_of_In in Hb.
    pose proof (find_none _ _ Hnone b Hb) as Hf. simpl in Hf. congruence.
  - intros Hall. destruct (List.find _ _) as [a|] eqn:Hf; [|done].
    apply find_some in Hf as [Hin Ht]. apply list_elem_of_In in Hin.
    apply targets_entity_bool in Ht. by destruct (Hall a Hin).
Qed.

(** The draw call chosen for one entity. *)
Lemma draw_object_dispatch (cam : bool) (w : World) (obj : ent_id) :
  (forall anim,
     draw_object cam w obj = DrawAnimatedVector anim cam <->
     first_target w obj anim /\ anim_is_finished w anim = false) /\
  (draw_object cam w obj = DrawVector obj cam <->
     ~ exists anim, first_target w obj anim /\ anim_is_finished w anim = false).
Proof.
  unfold draw_object.
  destruct (active_anim w obj) as [a|] eqn:Ha.
  - pose proof (proj1 (active_anim_first w obj a) Ha) as Hfirst.
    assert (Huniq : forall b, first_target w obj b -> b = a).
    { intros b Hb. apply active_anim_first in Hb. congruence. }
    destruct (anim_is_finished w a) eqn:Hfin; simpl.
    + split.
      * intros anim. split; [done|]. intros [Hb Hf].
        apply Huniq in Hb as ->. congruence.
      * split; [|done]. intros _ (anim & Hb & Hf).
        apply Huniq in Hb as ->. congruence.
    + split.
      * intros anim. split.
        -- intros [= <-]. done.
        -- intros [Hb _]. apply Huniq in Hb as ->. done.
      * split; [done|]. intros Hno. exfalso. apply Hno. eauto.
  - assert (Hnone : forall b, ~ first_target w obj b).
    { intros b Hb. apply active_anim_first in Hb. congruence. }
    split.
    + intros anim. split; [done|]. intros [Hb _]. by apply Hnone in Hb.
    + split; [|done]. intros _ (anim & Hb & _). by apply Hnone in Hb.
Qed.

Lemma elem_of_map {A B} (f : A -> B) (l : list A) (y : B) :
  y ∈ map f l <-> exists x, y = f x /\ x ∈ l.
Proof.
  rewrite list_elem_of_In, in_map_iff. split.
  - intros (x & <- & Hx). exists x. by rewrite list_elem_of_In.
  - intros (x & -> & Hx). exists x. by rewrite <- list_elem_of_In.
Qed.

Lemma current_pass_unfold (w : World) :
  let cam := bool_decide (_dim (self w) = 2%Z) in
  current_pass w
  = [Clear; if cam then Setup2DProjection else Setup3DProjection]
      ++ grid_part cam w
      ++ map (draw_object cam w) (_objects (self w))
      ++ [DrawControlsHint (_paused (self w)); Flip].
Proof.
  unfold current_pass, render_pass, grid_part.
  rewrite <- !List_filter_stdpp.
  destruct (bool_decide _); simpl; by rewrite <- !app_assoc.
Qed.

Lemma draw_object_not_flip (cam : bool) (w : World) (obj : ent_id) :
  draw_object cam w obj <> Flip.
Proof.
  unfold draw_object. destruct (active_anim w obj); [|done].
  by destruct (negb _).
Qed.

(** C3, as the code has it. A render pass is: clear, projection set-up, the
    grid part, one draw call per entity in insertion order, the controls
    hint, and a single flip at the very end.  An entity gets the animated
    draw call exactly when the first active VectorAnimation targeting it (in
    active-list order) is unfinished, and the static draw call in every
    other case; when at most one active animation targets the entity this
    is: exactly when some active, unfinished VectorAnimation targets it.
    The static grid is drawn exactly when the grid-visibility flag is set,
    and a transformed grid is drawn for every active GridTransformAnimation,
    finished or not. *)
Theorem render_dispatch (w : World) :
  let cam := bool_decide (_dim (self w) = 2%Z) in
  let setup := if cam then Setup2DProjection else Setup3DProjection in
  let body := [Clear; setup] ++ grid_part cam w
              ++ map (draw_object cam w) (_objects (self w))
              ++ [DrawControlsHint (_paused (self w))] in
  calls (_render w) = calls w ++ map Render (body ++ [Flip]) /\
  framebuffer (_render w) = body ++ [Flip] /\
  (Flip ∉ body) /\
  (forall obj,
     (forall anim,
        draw_object cam w obj = DrawAnimatedVector anim cam <->
        first_target w obj anim /\ anim_is_finished w anim = false) /\
     (draw_object cam w obj = DrawVector obj cam <->
        ~ exists anim, first_target w obj anim /\ anim_is_finished w anim = false) /\
     ((forall a b, a ∈ _animations (self w) -> b ∈ _animations (self w) ->
                   targets_entity w obj a -> targets_entity w obj b -> a = b) ->
      ((exists anim, draw_object cam w obj = DrawAnimatedVector anim cam) <->
       (exists anim, anim ∈ _animations (self w) /\ targets_entity w obj anim /\
                     anim_is_finished w anim = false)))) /\
  (DrawGrid cam ∈ grid_part cam w <-> _show_grid (self w) = true) /\
  (forall anim,
     DrawTransformedGrid anim cam ∈ grid_part cam w <->
     anim ∈ _animations (self w) /\ is_grid_transform w anim = true).
Proof.
  intros cam setup body.
  assert (Hpass : current_pass w = body ++ [Flip]).
  { rewrite current_pass_unfold. fold cam setup. unfold body.
    simpl. by rewrite <- !app_assoc. }
  split; [|split; [|split; [|split; [|split]]]].
  - by rewrite render_current_pass, <- Hpass.
  - by rewrite render_current_pass, <- Hpass.
  - unfold body, grid_part. rewrite !elem_of_app, !elem_of_map.
    intros [Hin|[[Hin|Hin]|[Hin|Hin]]].
    + apply elem_of_cons in Hin as [?|Hin]; [done|].
      apply list_elem_of_singleton in Hin. unfold setup in Hin. by destruct cam.
    + destruct (_show_grid (self w)); [|by apply elem_of_nil in Hin].
      by apply list_elem_of_singleton in Hin.
    + by destruct Hin as (? & ? & _).
    + destruct Hin as (obj & Hobj & _). symmetry in Hobj.
      by apply draw_object_not_flip in Hobj.
    + by apply list_elem_of_singleton in Hin.
  - intros obj. destruct (draw_object_dispatch cam w obj) as [Hanim Hstatic].
    split; [done|]. split; [done|]. intros Huniq. split.
    + intros (anim & Hd). apply Hanim in Hd as [(l1 & l2 & Hl & Ht & _) Hf].
      exists anim. split; [|done]. rewrite Hl. apply elem_of_app. right. by left.
    + intros (anim & Hin & Ht & Hf).
      destruct (active_anim w obj) as [a|] eqn:Ha.
      * pose proof (proj1 (active_anim_first w obj a) Ha) as Hfirst.
        assert (a = anim) as ->.
        { destruct Hfirst as (l1 & l2 & Hl & Ht' & _).
          apply Huniq; [|done..]. rewrite Hl. apply elem_of_app. right. by left. }
        exists anim. by apply Hanim.
      * exfalso. by apply (proj1 (active_anim_None w obj) Ha anim).
  - unfold grid_part. rewrite elem_of_app, elem_of_map. split.
    + intros [Hin|(? & ? & _)]; [|done].
      destruct (_show_grid (self w)); [done|by apply elem_of_nil in Hin].
    + intros ->. left. by left.
  - intros anim. unfold grid_part. rewrite elem_of_app, elem_of_map. split.
    + intros [Hin|(a & [= ->] & Ha)].
      * destruct (_show_grid (self w)); [|by apply elem_of_nil in Hin].
        by apply list_elem_of_singleton in Hin.
      * apply list_elem_of_filter in Ha as [? ?]. done.
    + intros [Hin Hg]. right. exists anim. split; [done|].
      by apply list_elem_of_filter.
Qed.

(** ** Replay *)

Lemma elem_of_missing (active originals : list anim_id) (a : anim_id) :
  a ∈ missing active originals <-> a ∈ originals /\ a ∉ active.
Proof.
  revert active. induction originals as [|x l IH]; intros active; simpl.
  - split; [intros H; by apply elem_of_nil in H|intros [H _]; by apply elem_of_nil in H].
  - destruct (decide (x ∈ active)) as [Hx|Hx].
    + rewrite IH, elem_of_cons. split; [intros [? ?]; auto|].
      intros [[-> | ?] ?]; [done|auto].
    + rewrite !elem_of_cons, IH, elem_of_app, list_elem_of_singleton. split.
      * intros [-> | [? Hn]]; [auto|]. split; [auto|]. intros ?. apply Hn. auto.
      * intros [[-> | Hl] Hn]; [auto|].
        destruct (decide (a = x)) as [->|Hne]; [auto|].
        right. split; [done|]. intros [?|?]; done.
Qed.

Lemma NoDup_missing (active originals : list anim_id) :
  NoDup (missing active originals).
Proof.
  revert active. induction originals as [|x l IH]; intros active; simpl.
  - apply NoDup_nil_2.
  - destruct (decide (x ∈ active)); [apply IH|].
    apply NoDup_cons. split; [|apply IH].
    rewrite elem_of_missing, elem_of_app, list_elem_of_singleton.
    intros [_ Hn]. apply Hn. auto.
Qed.

Lemma missing_filter (active originals : list anim_id) :
  NoDup originals ->
  missing active originals = filter (fun a => a ∉ active) originals.
Proof.
  revert active. induction originals as [|x l IH]; intros active Hnd; [done|].
  apply NoDup_cons in Hnd as [Hx Hnd]. simpl.
  destruct (decide (x ∈ active)) as [Hin|Hin].
  - rewrite filter_cons_False by (intros Hn; by apply Hn). by apply IH.
  - rewrite filter_cons_True by done. f_equal. rewrite IH by done.
    apply filter_iff_in. intros a Ha.
    rewrite elem_of_app, list_elem_of_singleton. split.
    + intros Hn ?. apply Hn. auto.
    + intros Hn [? | ->]; done.
Qed.

Lemma restore_missing_fold (l : list anim_id) (w : World) :
  let w' := foldl restore1 w l in
  let m := missing (_animations (self w)) l in
  _animations (self w') = _animations (self w) ++ m /\
  (forall a, animation_objs w' !! a
             = if decide (a ∈ m) then Animation.reset <$> animation_objs w !! a
               else animation_objs w !! a) /\
  calls w' = calls w ++ map AnimationReset m /\
  same_clock w w'.
Proof.
  revert w. induction l as [|x l IH]; intros w; simpl.
  - rewrite !app_nil_r. done.
  - unfold restore1 at 2 4 6 8.
    destruct (decide (x ∈ _animations (self w))) as [Hin|Hin]; [apply IH|].
    set (w1 := upd_self _ (anim_reset w x)).
    destruct (IH w1) as (Hact & Hobjs & Hcalls & Hclk).
    change (_animations (self w1)) with (_animations (self w) ++ [x]) in *.
    split; [|split; [|split]].
    + rewrite Hact, <- app_assoc. done.
    + intros a. rewrite Hobjs.
      destruct (decide (x = a)) as [->|Hne].
      * destruct (decide (a ∈ a :: _)) as [_|Hn]; [|exfalso; apply Hn; by left].
        change (animation_objs w1 !! a)
          with (animation_objs (animation_call Animation.reset (AnimationReset a) a w) !! a).
        rewrite animation_call_lookup_eq.
        destruct (decide _); [|done]. by destruct (animation_objs w !! a).
      * change (animation_objs w1 !! a)
          with (animation_objs (animation_call Animation.reset (AnimationReset x) x w) !! a).
        rewrite animation_call_lookup_ne by done.
        destruct (decide (a ∈ missing _ l)) as [H1|H1],
                 (decide (a ∈ x :: missing _ l)) as [H2|H2]; try done.
        -- exfalso. apply H2. by right.
        -- exfalso. apply elem_of_cons in H2 as [?|?]; [congruence|done].
    + rewrite Hcalls. simpl. by rewrite <- app_assoc.
    + eapply same_clock_trans; [|exact Hclk]. done.
Qed.

Lemma reset_active_unfold (w : World) :
  self (reset_active w) = self w /\
  (forall a, animation_objs (reset_active w) !! a
             = if decide (a ∈ _animations (self w))
               then Animation.reset <$> animation_objs w !! a
               else animation_objs w !! a) /\
  calls (reset_active w) = calls w ++ map AnimationReset (_animations (self w)).
Proof.
  unfold reset_active. split; [|split].
  - by apply foldl_self.
  - intros a. apply reset_all_lookup.
  - by apply (foldl_calls _ AnimationReset).
Qed.

(** The two loops shared by [_replay] and [_step_backward]. *)
Lemma reset_and_restore (w : World) :
  let w' := restore_missing (reset_active w) in
  let m := missing (_animations (self w)) (_original_animations (self w)) in
  _animations (self w') = _animations (self w) ++ m /\
  (forall a, animation_objs w' !! a
             = if decide (a ∈ _animations (self w) ++ m)
               then Animation.reset <$> animation_objs w !! a
               else animation_objs w !! a) /\
  calls w' = calls w ++ map AnimationReset (_animations (self w) ++ m) /\
  same_clock w w'.
Proof.
  destruct (reset_active_unfold w) as (Hself & Hobjs & Hcalls).
  unfold restore_missing.
  destruct (restore_missing_fold (_original_animations (self (reset_active w)))
              (reset_active w)) as (Hact & Hobjs2 & Hcalls2 & Hclk).
  rewrite !Hself in *. cbn zeta in *.
  split; [done|]. split; [|split].
  - intros a. rewrite Hobjs2, Hobjs.
    destruct (decide (a ∈ missing _ _)) as [H1|H1],
             (decide (a ∈ _animations (self w))) as [H2|H2],
             (decide (a ∈ _animations (self w) ++ _)) as [H3|H3];
      try done; try (exfalso; apply H3; apply elem_of_app; auto; fail).
    + by destruct (animation_objs w !! a).
    + exfalso. apply elem_of_app in H3 as [?|?]; done.
  - rewrite Hcalls2, Hcalls, map_app, <- app_assoc. done.
  - destruct Hclk as [? ?]. split; congruence.
Qed.

(** C1, as the code has it. [_replay] resets every Animation of the original
    list (and every active one) to progress zero, keeps the active list as
    it is and appends to it the original animations that were missing, each
    once and in original order; so the active list has the same members as
    the original list whenever it was a part of it, but it is the original
    list itself, order included, only when the animations still active came
    first in the original order (in particular when none was active).  The
    Timeline ends playing at elapsed time zero and the paused flag is
    cleared. *)
Theorem replay_restores (w : World) :
  let w' := _replay w in
  let m := missing (_animations (self w)) (_original_animations (self w)) in
  (forall a, a ∈ _original_animations (self w) ->
     animation_objs w' !! a = Animation.reset <$> animation_objs w !! a /\
     anim_elapsed w' a = 0) /\
  _animations (self w') = _animations (self w) ++ m /\
  NoDup m /\
  (forall a, a ∈ m <-> a ∈ _original_animations (self w) /\
                       a ∉ _animations (self w)) /\
  ((forall a, a ∈ _animations (self w) -> a ∈ _original_animations (self w)) ->
   forall a, a ∈ _animations (self w') <-> a ∈ _original_animations (self w)) /\
  (NoDup (_original_animations (self w)) ->
     m = filter (fun a => a ∉ _animations (self w))
           (_original_animations (self w)) /\
     forall rest, _original_animations (self w) = _animations (self w) ++ rest ->
                  _animations (self w') = _original_animations (self w)) /\
  _timeline (self w') = Timeline.mk 0 Timeline.Playing /\
  _paused (self w') = false /\
  _original_animations (self w') = _original_animations (self w).
Proof.
  intros w' m.
  destruct (reset_and_restore w) as (Hact & Hobjs & _ & _).
  fold m in Hact, Hobjs.
  assert (Hact' : _animations (self w') = _animations (self w) ++ m) by exact Hact.
  assert (Hobjs' : forall a, animation_objs w' !! a
             = if decide (a ∈ _animations (self w) ++ m)
               then Animation.reset <$> animation_objs w !! a
               else animation_objs w !! a) by exact Hobjs.
  assert (Hcover : forall a, a ∈ _original_animations (self w) ->
                             a ∈ _animations (self w) ++ m).
  { intros a Ha. apply elem_of_app.
    destruct (decide (a ∈ _animations (self w))); [auto|].
    right. by apply elem_of_missing. }
  split; [|split; [done|split; [apply NoDup_missing|split; [|split; [|split]]]]].
  - intros a Ha.
    assert (Hl : animation_objs w' !! a = Animation.reset <$> animation_objs w !! a).
    { rewrite Hobjs'. destruct (decide _) as [|Hn]; [done|].
      exfalso. by apply Hn, Hcover. }
    split; [done|]. unfold anim_elapsed. rewrite Hl.
    by destruct (animation_objs w !! a).
  - intros a. apply elem_of_missing.
  - intros Hsub a. rewrite Hact', elem_of_app. unfold m. rewrite elem_of_missing.
    split; [intros [?|[? _]]; auto|]. intros Ha.
    destruct (decide (a ∈ _animations (self w))); auto.
  - intros Hnd. split; [by apply missing_filter|].
    intros rest Hrest. rewrite Hact'. unfold m.
    rewrite missing_filter by done. rewrite Hrest.
    f_equal. rewrite Hrest in Hnd. apply NoDup_app in Hnd as (_ & Hdisj & _).
    rewrite filter_app, filter_False_nil, filter_True_id; [done| |].
    + intros x Hx Hx'. by apply (Hdisj x).
    + intros x Hx Hn. by apply Hn.
  - split; [done|]. split; [done|].
    pose proof (playback_replay w) as Hpb.
    apply playback_frame in Hpb. by destruct Hpb as (_&_&_&_&_&_&_&?&_).
Qed.

(** ** Stepping forward and backward *)

Lemma step_first (dt : Q) (w : World) (a : anim_id) (rest : list anim_id)
    (obj : Animation.t) :
  _animations (self w) = a :: rest -> a ∉ rest ->
  animation_objs w !! a = Some obj ->
  animation_objs (_step dt w) !! a = Some (Animation.update dt obj).
Proof.
  intros Hact Hrest Hobj. unfold _step. cbv zeta.
  change (_animations (self (timeline_call _ _ w))) with (_animations (self w)).
  rewrite Hact.
  rewrite (advance_all_once dt [] rest); [|apply not_elem_of_nil|done].
  simpl. by rewrite Hobj.
Qed.

Lemma key_right_once (w : World) (a : anim_id) (rest : list anim_id)
    (obj : Animation.t) :
  _animations (self w) = a :: rest -> a ∉ rest ->
  animation_objs w !! a = Some obj ->
  animation_objs (key_right w) !! a
    = Some (Animation.update (_step_size (self w)) obj) /\
  _animations (self (key_right w)) = a :: rest /\
  _step_size (self (key_right w)) = _step_size (self w) /\
  _paused (self (key_right w)) = true.
Proof.
  intros Hact Hrest Hobj. unfold key_right, handle_event. cbv zeta.
  set (w0 := upd_self (set_paused true) w).
  change (_step_size (self w0)) with (_step_size (self w)).
  split; [by apply (step_first _ w0 a rest)|].
  destruct (step_unfold (_step_size (self w)) w0) as (_ & Ha & _ & Hp).
  pose proof (playback_step (_step_size (self w)) w0) as Hpb.
  apply playback_frame in Hpb.
  destruct Hpb as (_&_&_&_&_&_&_&_&_&_&_&_&Hs).
  rewrite Ha, Hp, Hs. done.
Qed.

(** [k] presses of the right arrow advance the first active animation by
    [k] steps as long as that stays within its duration. *)
Lemma key_right_iter (k : nat) (w : World) (a : anim_id) (rest : list anim_id)
    (obj : Animation.t) :
  _animations (self w) = a :: rest -> a ∉ rest ->
  animation_objs w !! a = Some obj ->
  0 < _step_size (self w) ->
  Animation._elapsed obj + inject_Z (Z.of_nat k) * _step_size (self w)
    <= Animation._duration obj ->
  exists obj',
    animation_objs (Nat.iter k key_right w) !! a = Some obj' /\
    Animation._elapsed obj'
      == Animation._elapsed obj + inject_Z (Z.of_nat k) * _step_size (self w) /\
    Animation._duration obj' = Animation._duration obj /\
    _animations (self (Nat.iter k key_right w)) = a :: rest /\
    _step_size (self (Nat.iter k key_right w)) = _step_size (self w).
Proof.
  intros Hact Hrest Hobj Hs. induction k as [|k IH]; intros Hle.
  - exists obj. simpl. repeat split; try done. unfold inject_Z. simpl. ring.
  - rewrite Nat2Z.inj_succ in Hle |- *. unfold Z.succ in Hle |- *.
    rewrite inject_Z_plus in Hle |- *. change (inject_Z 1) with 1 in *.
    destruct IH as (obj' & Hobj' & He & Hd & Hact' & Hs'); [lra|].
    destruct (key_right_once _ a rest obj' Hact' Hrest Hobj')
      as (Hobj'' & Hact'' & Hs'' & _).
    simpl Nat.iter. eexists. split; [exact Hobj''|].
    rewrite Hs'', Hs'. simpl. rewrite Hd. repeat split; try done.
    destruct (Qle_bool _ _) eqn:Hb.
    + apply Qle_bool_iff in Hb. rewrite He in Hb. lra.
    + rewrite He. ring.
Qed.

Lemma py_max_0_nonneg (x : Q) : 0 <= x -> py_max 0 x == x.
Proof.
  intros Hx. unfold py_max, Qltb. destruct (Qle_bool x 0) eqn:Hb; simpl.
  - apply Qle_bool_iff in Hb. lra.
  - reflexivity.
Qed.

Lemma py_max_0_nonpos (x : Q) : x <= 0 -> py_max 0 x = 0.
Proof.
  intros Hx. unfold py_max, Qltb.
  apply Qle_bool_iff in Hx. by rewrite Hx.
Qed.

(** Stepping backward at or below one step of progress lands on zero. *)
Lemma step_backward_clamps (w : World) :
  _get_total_progress w <= _step_size (self w) ->
  _get_total_progress (_step_backward w) = 0.
Proof.
  intros Hle. unfold _step_backward. cbv zeta.
  rewrite py_max_0_nonpos by lra. change (Qltb 0 0) with false. cbv iota.
  destruct (reset_and_restore w) as (Hact & Hobjs & _ & _).
  unfold _get_total_progress. simpl.
  rewrite Hact.
  destruct (_animations (self w) ++ _) as [|x l] eqn:Hl; [done|].
  unfold anim_elapsed. simpl. rewrite Hobjs.
  destruct (decide _) as [_|Hn]; [|exfalso; apply Hn; by left].
  by destruct (animation_objs w !! x).
Qed.

(** Stepping backward takes the first active animation to its progress
    minus one step. *)
Lemma step_backward_first (w : World) (a : anim_id) (rest : list anim_id)
    (obj : Animation.t) :
  _animations (self w) = a :: rest -> a ∉ rest ->
  animation_objs w !! a = Some obj ->
  _step_size (self w) <= Animation._elapsed obj ->
  Animation._elapsed obj - _step_size (self w) <= Animation._duration obj ->
  _get_total_progress (_step_backward w)
    == Animation._elapsed obj - _step_size (self w).
Proof.
  intros Hact Hrest Hobj Hge Hle.
  assert (Hcur : _get_total_progress w = Animation._elapsed obj).
  { unfold _get_total_progress, anim_elapsed. by rewrite Hact, Hobj. }
  destruct (Qlt_le_dec 0 (Animation._elapsed obj - _step_size (self w)))
    as [Hpos|Hzero].
  - unfold _step_backward. cbv zeta. rewrite Hcur.
    set (target := py_max 0 (Animation._elapsed obj - _step_size (self w))).
    assert (Ht : target == Animation._elapsed obj - _step_size (self w)).
    { apply py_max_0_nonneg. lra. }
    assert (Hlt : Qltb 0 target = true).
    { unfold Qltb. destruct (Qle_bool target 0) eqn:Hb; [|done].
      apply Qle_bool_iff in Hb. lra. }
    rewrite Hlt.
    destruct (reset_and_restore w) as (Hact2 & Hobjs & _ & _).
    set (w2 := restore_missing (reset_active w)) in *.
    set (w3 := timeline_call Timeline.stop TimelineStop w2).
    assert (Hact3 : _animations (self w3)
                    = a :: rest ++ missing (_animations (self w))
                                     (_original_animations (self w))).
    { change (_animations (self w3)) with (_animations (self w2)).
      rewrite Hact2, Hact. done. }
    assert (Hobj3 : animation_objs w3 !! a = Some (Animation.reset obj)).
    { change (animation_objs w3) with (animation_objs w2).
      rewrite Hobjs, Hact, Hobj.
      destruct (decide _) as [_|Hn]; [done|]. exfalso. apply Hn. by left. }
    assert (Hnot : a ∉ rest ++ missing (_animations (self w))
                                 (_original_animations (self w))).
    { rewrite elem_of_app, elem_of_missing, Hact.
      intros [?|[_ Hn]]; [done|]. apply Hn. by left. }
    pose proof (step_first target w3 a _ _ Hact3 Hnot Hobj3) as Hfinal.
    destruct (step_unfold target w3) as (_ & Hact4 & _).
    unfold _get_total_progress, anim_elapsed. simpl.
    rewrite Hact4, Hact3, Hfinal. simpl.
    destruct (Qle_bool _ _) eqn:Hb.
    + apply Qle_bool_iff in Hb. lra.
    + rewrite Ht. ring.
  - rewrite step_backward_clamps by (rewrite Hcur; lra). lra.
Qed.

(** C4, as the code has it (times are exact rationals). Let the first
    active animation be listed once, with progress [p >= 0]. After [k >= 1]
    presses of the right arrow with [p + k * step] within its duration, the
    aggregate progress is [p + k * step], and one [_step_backward] leaves it
    at [p + (k - 1) * step]: at [(k - 1) * step] when the animation started
    idle, not otherwise.  Whenever the aggregate progress is at most one
    step, [_step_backward] leaves it at 0. *)
Theorem step_backward_undoes_one_step (w : World) (a : anim_id)
    (rest : list anim_id) (obj : Animation.t) (k : nat) :
  _animations (self w) = a :: rest -> a ∉ rest ->
  animation_objs w !! a = Some obj ->
  0 <= Animation._elapsed obj ->
  0 < _step_size (self w) ->
  (1 <= k)%nat ->
  Animation._elapsed obj + inject_Z (Z.of_nat k) * _step_size (self w)
    <= Animation._duration obj ->
  let forward := Nat.iter k key_right w in
  _get_total_progress forward
    == Animation._elapsed obj + inject_Z (Z.of_nat k) * _step_size (self w) /\
  _get_total_progress (_step_backward forward)
    == Animation._elapsed obj
       + inject_Z (Z.of_nat k - 1) * _step_size (self w) /\
  (Animation._elapsed obj == 0 ->
   _get_total_progress (_step_backward forward)
     == inject_Z (Z.of_nat k - 1) * _step_size (self w)) /\
  (forall w0, _get_total_progress w0 <= _step_size (self w0) ->
              _get_total_progress (_step_backward w0) = 0).
Proof.
  intros Hact Hrest Hobj He0 Hs Hk Hle forward.
  destruct (key_right_iter k w a rest obj Hact Hrest Hobj Hs Hle)
    as (obj' & Hobj' & He & Hd & Hact' & Hs').
  fold forward in Hobj', Hact', Hs'.
  set (K := inject_Z (Z.of_nat k - 1)).
  assert (HK : inject_Z (Z.of_nat k) == K + 1).
  { unfold K. replace (Z.of_nat k) with ((Z.of_nat k - 1) + 1)%Z at 1 by lia.
    rewrite inject_Z_plus. reflexivity. }
  assert (HK0 : 0 <= K * _step_size (self w)).
  { apply Qmult_le_0_compat; [|lra].
    unfold K. change 0 with (inject_Z 0). rewrite <- Zle_Qle. lia. }
  rewrite HK in He, Hle.
  assert (Hprog : _get_total_progress forward
                  == Animation._elapsed obj + (K + 1) * _step_size (self w)).
  { unfold _get_total_progress, anim_elapsed. by rewrite Hact', Hobj'. }
  assert (Hback : _get_total_progress (_step_backward forward)
                  == Animation._elapsed obj + K * _step_size (self w)).
  { rewrite (step_backward_first forward a rest obj' Hact' Hrest Hobj');
      rewrite Hs'; [rewrite He; ring|rewrite He; lra|rewrite He, Hd; lra]. }
  split; [by rewrite HK|]. split; [done|]. split.
  - intros Hidle. rewrite Hback, Hidle. ring.
  - apply step_backward_clamps.
Qed.

(** ** The Scene invariant *)

Lemma update_active_sublist (dt : Q) (w : World) :
  sublist (_animations (self (_update dt w))) (_animations (self w)).
Proof.
  destruct (_paused (self w)) eqn:Hp.
  - unfold _update. by rewrite Hp.
  - destruct (update_unfold dt w Hp) as (fin & l' & _ & Hsub & -> & _). done.
Qed.

Lemma replay_active (w : World) :
  _animations (self (_replay w))
  = _animations (self w)
      ++ missing (_animations (self w)) (_original_animations (self w)).
Proof. destruct (reset_and_restore w) as (Hact & _). exact Hact. Qed.

Lemma remove_objects (w : World) (obj : ent_id) :
  sublist (_objects (self (remove obj w))) (_objects (self w)) /\
  exists objs, self (remove obj w) = set_objects objs (self w).
Proof.
  unfold remove. destruct (decide _) as [Hin|Hin].
  - destruct (list_remove_split _ _ Hin) as (l1 & l2 & Hl & _ & ->). simpl.
    split; [|eauto]. rewrite Hl. apply sublist_app; [done|]. by apply sublist_cons.
  - split; [done|]. exists (_objects (self w)). by destruct w as [? [] ? ? ? ? ?].
Qed.

Lemma step_backward_active (w : World) :
  _animations (self (_step_backward w))
  = _animations (self w)
      ++ missing (_animations (self w)) (_original_animations (self w)).
Proof.
  destruct (reset_and_restore w) as (Hact & _). unfold _step_backward. cbv zeta.
  destruct (Qltb _ _); [|exact Hact].
  change (_animations (self (upd_self (set_paused true) ?w)))
    with (_animations (self w)).
  simpl. destruct (step_unfold
    (py_max 0 (_get_total_progress w - _step_size (self w)))
    (timeline_call Timeline.stop TimelineStop (restore_missing (reset_active w))))
    as (_ & Ha & _).
  rewrite Ha. exact Hact.
Qed.

Lemma restored_subset (w : World) (a : anim_id) :
  (forall a, a ∈ _animations (self w) -> a ∈ _original_animations (self w)) ->
  a ∈ _animations (self w)
        ++ missing (_animations (self w)) (_original_animations (self w)) ->
  a ∈ _original_animations (self w).
Proof.
  intros Hsub [?|Hm]%elem_of_app; [auto|]. by apply elem_of_missing in Hm as [? _].
Qed.

Lemma restored_NoDup (active originals : list anim_id) :
  NoDup active -> NoDup (active ++ missing active originals).
Proof.
  intros Hnd. apply NoDup_app. split; [done|]. split; [|apply NoDup_missing].
  intros x Hx Hm. by apply elem_of_missing in Hm as [_ ?].
Qed.

Lemma init_inv (dim width height : Z) (title : string) (s : Scene.t)
    (id : scene_id) (objs : gmap anim_id Animation.t)
    (vecs : gmap ent_id Vector.t) :
  __init__ dim width height title = inr s ->
  scene_inv (mkWorld id s objs vecs [] [] []) /\
  registered_once (mkWorld id s objs vecs [] [] []).
Proof.
  unfold __init__. cbn zeta. repeat case_match; try done; intros [= <-].
  all: repeat split; simpl; try apply NoDup_nil_2.
  all: intros a Ha; by apply elem_of_nil in Ha.
Qed.

Lemma playback_inv (w w' : World) :
  playback w w' ->
  (forall a, a ∈ _animations (self w') -> a ∈ _original_animations (self w)) ->
  scene_inv w -> scene_inv w'.
Proof.
  intros Hpb Hsub (Hnd & _ & Hstep). apply playback_frame in Hpb.
  destruct Hpb as (_&_&_&_&_&_&Hobj&Horig&_&_&_&_&Hs).
  split; [by rewrite Hobj|]. split; [by rewrite Horig|congruence].
Qed.

(** Every operation of the Scene keeps the invariant. *)
Lemma scene_inv_preserved (w : World) :
  scene_inv w ->
  (forall objects, scene_inv (add objects w)) /\
  (forall obj, scene_inv (remove obj w)) /\
  scene_inv (clear w) /\
  (forall anim, scene_inv (_add_animation anim w)) /\
  (forall dt, scene_inv (_update dt w)) /\
  (forall dt, scene_inv (_step dt w)) /\
  scene_inv (_replay w) /\
  scene_inv (_step_backward w) /\
  scene_inv (_render w).
Proof.
  intros Hinv. pose proof Hinv as (Hnd & Hsub & Hstep).
  split; [|split; [|split; [|split; [|split; [|split; [|split; [|split]]]]]]].
  - intros objects. split; [by apply add_NoDup|].
    assert (Hself : forall l w0, exists objs,
              self (add l w0) = set_objects objs (self w0)).
    { induction l as [|x l IH]; intros w0.
      - exists (_objects (self w0)). by destruct w0 as [? [] ? ? ? ? ?].
      - unfold add in *. simpl. unfold add1 at 2.
        destruct (decide _); [apply IH|].
        destruct (IH (set_scene x (Some (self_id w0))
                        (upd_self (set_objects (_objects (self w0) ++ [x])) w0)))
          as (objs & ->). by exists objs. }
    destruct (Hself objects w) as (objs & ->). done.
  - intros obj. destruct (remove_objects w obj) as (Hsubl & objs & Hself).
    split; [by eapply sublist_NoDup|]. rewrite Hself. done.
  - split; [apply NoDup_nil_2|]. split.
    + intros a Ha. by apply elem_of_nil in Ha.
    + unfold clear. simpl.
      rewrite (foldl_self (fun w obj => set_scene obj None w)); done.
  - intros anim. split; [done|]. split; [|done]. simpl. intros a.
    rewrite !elem_of_app. intros [?|?]; auto.
  - intros dt. eapply playback_inv; [apply playback_update| |done].
    intros a Ha. apply Hsub. eapply sublist_subseteq; [|exact Ha].
    apply update_active_sublist.
  - intros dt. eapply playback_inv; [apply playback_step| |done].
    destruct (step_unfold dt w) as (_ & -> & _). done.
  - eapply playback_inv; [apply playback_replay| |done].
    rewrite replay_active. intros a. by apply restored_subset.
  - eapply playback_inv; [apply playback_step_backward| |done].
    rewrite step_backward_active. intros a. by apply restored_subset.
  - destruct (render_frame w) as (Hself & _). unfold scene_inv. by rewrite Hself.
Qed.

(** Playback never lists an animation twice when each was registered
    once. *)
Lemma registered_once_preserved (w : World) :
  registered_once w ->
  (forall anim, anim ∉ _original_animations (self w) -> scene_inv w ->
                registered_once (_add_animation anim w)) /\
  (forall dt, registered_once (_update dt w)) /\
  (forall dt, registered_once (_step dt w)) /\
  registered_once (_replay w) /\
  registered_once (_step_backward w).
Proof.
  intros (Horig & Hact).
  assert (Hpb : forall w', playback w w' -> NoDup (_animations (self w')) ->
                           registered_once w').
  { intros w' Hpb Hnd. apply playback_frame in Hpb.
    destruct Hpb as (_&_&_&_&_&_&_&Ho&_). split; [by rewrite Ho|done]. }
  split; [|split; [|split; [|split]]].
  - intros anim Hnew (_ & Hsub & _). split; simpl.
    + apply NoDup_app. split; [done|]. split; [|apply NoDup_singleton].
      intros x Hx ->%list_elem_of_singleton. done.
    + apply NoDup_app. split; [done|]. split; [|apply NoDup_singleton].
      intros x Hx ->%list_elem_of_singleton. auto.
  - intros dt. apply Hpb; [apply playback_update|].
    eapply sublist_NoDup; [exact Hact|apply update_active_sublist].
  - intros dt. apply Hpb; [apply playback_step|].
    destruct (step_unfold dt w) as (_ & -> & _). done.
  - apply Hpb; [apply playback_replay|].
    rewrite replay_active. by apply restored_NoDup.
  - apply Hpb; [apply playback_step_backward|].
    rewrite step_backward_active. by apply restored_NoDup.
Qed.

(** * The properties at the sample worlds *)

Import Samples.

Example init_default : __init__ 2 800 600 "linalg-viz" = inr scene2d.
Proof. reflexivity. Qed.

(** The end-to-end scenario of the spec: two one-second animations captured
    at 20 fps give 20 frames of motion and 20 trailing frames. *)
Example gifs_scenario_frames :
  exists w', record_play "linear_transform.gif" 20 gifs_world = Returned w' /\
             length (_frames (self w')) = 40%nat /\
             _animations (self w') = [].
Proof. eexists. split; [vm_compute; reflexivity|]. split; reflexivity. Qed.

(** ** Counterexamples to the claims as stated *)

(** C1 as stated fails: once the shorter of two animations has finished and
    left the active list, [_replay] puts it back behind the longer one, so
    the active list is the original list in another order. *)
Lemma replay_reorders_active_list :
  let w := _update (1 # 2) (started staggered_world) in
  _original_animations (self w) = [10; 11]%nat /\
  _animations (self w) = [11]%nat /\
  _animations (self (_replay w)) = [11; 10]%nat /\
  _animations (self (_replay w)) <> _original_animations (self w).
Proof. vm_compute. repeat split. discriminate. Qed.

(** C3 as stated fails: with two active animations on one entity, the first
    finished and the second not, the entity is drawn with the static call
    although an active, unfinished VectorAnimation targets it.  The grid is
    not dispatched one way or the other either: with a finished
    GridTransformAnimation in the active list the pass draws the static
    grid and the transformed grid. *)
Lemma render_ignores_second_animation :
  let w := key_right doubly_animated_world in
  let g := key_right grid_world in
  _animations (self w) = [10; 11]%nat /\
  targets_entity w 0 11 /\
  anim_is_finished w 11 = false /\
  anim_is_finished w 10 = true /\
  current_pass w = [Clear; Setup2DProjection; DrawGrid true; DrawVector 0 true;
                    DrawControlsHint true; Flip] /\
  anim_is_finished g 12 = true /\
  current_pass g = [Clear; Setup2DProjection; DrawGrid true;
                    DrawTransformedGrid 12 true; DrawVector 0 true;
                    DrawControlsHint true; Flip].
Proof.
  cbv zeta. split; [reflexivity|]. split.
  - eexists. split; [vm_compute; reflexivity|reflexivity].
  - repeat split.
Qed.

(** C4 as stated fails: for a Scene whose first active animation is half
    way through, one step forward and one step backward leave the progress
    at one half, not at (1 - 1) steps. *)
Lemma step_backward_keeps_earlier_progress :
  let w := _update (1 # 2) (started gifs_world) in
  _animations (self w) = [10; 11]%nat /\
  anim_elapsed w 10 == 1 # 2 /\
  inject_Z (Z.of_nat 1) * _step_size (self w) <= 1 /\
  _get_total_progress (_step_backward (Nat.iter 1 key_right w)) == 1 # 2 /\
  ~ _get_total_progress (_step_backward (Nat.iter 1 key_right w))
    == inject_Z (Z.of_nat 1 - 1) * _step_size (self w).
Proof. vm_compute. repeat split; discriminate. Qed.

(** C5 as stated fails for the explicit step: in a frame whose input is one
    press of the right arrow, the render pass runs with a finished animation
    still in the active list. *)
Lemma step_leaves_finished_animation_active :
  let w := _update (1 # 60) (_handle_events [KEYDOWN K_RIGHT] doubly_animated_world) in
  show_iteration (1 # 60) [KEYDOWN K_RIGHT] doubly_animated_world = _render w /\
  _animations (self w) = [10; 11]%nat /\
  anim_is_finished w 10 = true /\
  calls w = [TimelineUpdate (5 # 100); AnimationUpdate 10 (5 # 100);
             AnimationUpdate 11 (5 # 100)].
Proof. repeat split. Qed.

(** The two ways a construction fails: the check on the dimensionality
    comes first, and a valid dimensionality with an invalid viewport size
    fails in the constructors. *)
Example init_rejects_invalid_configuration :
  __init__ 4 (-800) (-600) "linalg-viz"
    = inl (ValueError "Dimension must be 2 or 3") /\
  __init__ 2 (-800) (-600) "linalg-viz" = inl ConfigurationError /\
  __init__ 3 800 0 "linalg-viz" = inl ConfigurationError.
Proof. repeat split. Qed.

(** C8 as stated fails: at 30 fps the artifact is written at 33 ms per
    frame, which is not 1000/30. *)
Lemma save_gif_truncates_duration :
  (exists first, _frames (self one_frame_world) = [first]) /\
  (exists w' g, _save_gif "out.gif" 30 one_frame_world = Returned w' /\
                files w' = [("out.gif", g)] /\ gif_duration g = 33%Z) /\
  ~ inject_Z 33 == 1000 / inject_Z 30.
Proof.
  split; [eexists; vm_compute; reflexivity|]. split.
  - eexists. eexists. split; [vm_compute; reflexivity|]. split; reflexivity.
  - vm_compute. discriminate.
Qed.

(** C9 as stated fails: after [record] has written its artifact and
    returned, the Scene still holds all ten captured frames. *)
Lemma record_retains_frames :
  exists w', record "basic_vectors.gif" 1 10 basic_world = Returned w' /\
             length (files w') = 1%nat /\
             length (_frames (self w')) = 10%nat /\
             _frames (self w') <> [].
Proof.
  eexists. split; [vm_compute; reflexivity|]. repeat split. discriminate.
Qed.

(** ** The theorems at concrete inputs *)

Lemma gifs_world_active : _animations (self gifs_world) = [10; 11]%nat.
Proof. reflexivity. Qed.

(** [replay_restores] after the shorter of two animations has finished: the
    active list has the members of the original list again, and a second
    replay changes nothing. *)
Lemma replay_restores_witness :
  let w := _update (1 # 2) (started staggered_world) in
  (forall a, a ∈ _animations (self (_replay w)) <->
             a ∈ _original_animations (self w)) /\
  _animations (self (_replay (_replay w))) = _animations (self (_replay w)).
Proof.
  cbv zeta.
  assert (Hact : _animations (self (_update (1 # 2) (started staggered_world)))
                 = [11%nat]) by (vm_compute; reflexivity).
  assert (Horig : _original_animations
                    (self (_update (1 # 2) (started staggered_world)))
                  = [10; 11]%nat) by (vm_compute; reflexivity).
  split.
  - destruct (replay_restores (_update (1 # 2) (started staggered_world)))
      as (_ & _ & _ & _ & H & _).
    apply H. rewrite Hact, Horig.
    intros a Ha. apply list_elem_of_singleton in Ha. subst. right. left.
  - vm_compute. reflexivity.
Defined.


(** [render_dispatch] where each entity has one animation. *)
Lemma render_dispatch_witness :
  (exists anim, draw_object true gifs_world 0 = DrawAnimatedVector anim true) <->
  (exists anim, anim ∈ _animations (self gifs_world) /\
                targets_entity gifs_world 0 anim /\
                anim_is_finished gifs_world anim = false).
Proof.
  destruct (render_dispatch gifs_world) as (_ & _ & _ & H & _).
  destruct (H 0%nat) as (_ & _ & Huniq). apply Huniq.
  intros a b Ha Hb (oa & Hoa & Hka) (ob & Hob & Hkb).
  rewrite gifs_world_active in Ha, Hb.
  apply elem_of_cons in Ha as [->|Ha]; [|apply list_elem_of_singleton in Ha as ->];
    apply elem_of_cons in Hb as [->|Hb];
    try (apply list_elem_of_singleton in Hb as ->); try reflexivity.
  - vm_compute in Hob. injection Hob as <-. discriminate Hkb.
  - vm_compute in Hoa. injection Hoa as <-. discriminate Hka.
Defined.

(** [step_backward_undoes_one_step] from an idle animation: three steps
    forward and one back leave two steps. *)
Lemma step_backward_undoes_one_step_witness :
  (0 + inject_Z (Z.of_nat 3) * _step_size (self gifs_world) <= 1) /\
  _get_total_progress (_step_backward (Nat.iter 3 key_right gifs_world))
    == inject_Z (Z.of_nat 3 - 1) * _step_size (self gifs_world).
Proof.
  split; [vm_compute; discriminate|].
  destruct (step_backward_undoes_one_step gifs_world 10 [11%nat] (vec_anim 0 1) 3)
    as (_ & _ & H & _).
  - reflexivity.
  - intros Hin. apply list_elem_of_singleton in Hin. discriminate Hin.
  - reflexivity.
  - vm_compute. discriminate.
  - reflexivity.
  - lia.
  - vm_compute. discriminate.
  - apply H. reflexivity.
Defined.

(** [frame_effects_ordered] for an update of one second, which finishes both
    animations. *)
Lemma frame_effects_ordered_witness :
  exists fin,
    calls (_render (_update 1 (started gifs_world)))
    = calls (started gifs_world) ++ [TimelineUpdate 1]
        ++ map (fun a => AnimationUpdate a 1) [10; 11]%nat
        ++ map ActiveRemove fin
        ++ map Render (current_pass (_update 1 (started gifs_world))) /\
    fin = [10; 11]%nat /\
    _animations (self (_update 1 (started gifs_world))) = [].
Proof.
  destruct (frame_effects_ordered 1 (started gifs_world)) as (H & _).
  destruct (H eq_refl) as (fin & _ & Hcalls & Hnd).
  exists fin. split; [exact Hcalls|].
  destruct Hnd as (Hfin & Hact & _).
  - vm_compute _animations. apply NoDup_cons. split.
    + intros Hin. apply list_elem_of_singleton in Hin. discriminate Hin.
    + apply NoDup_singleton.
  - split; [rewrite Hfin|rewrite Hact]; reflexivity.
Defined.

(** [add_idempotent_on_duplicates] for an entity that is present and one that
    is not. *)
Lemma add_idempotent_on_duplicates_witness :
  add [0%nat] gifs_world = gifs_world /\
  _objects (self (add [7%nat] gifs_world)) = [0; 1; 7]%nat.
Proof.
  destruct (add_idempotent_on_duplicates gifs_world 0) as (H0 & _).
  destruct (add_idempotent_on_duplicates gifs_world 7) as (_ & H7 & _).
  split.
  - apply H0. left.
  - apply H7. intros Hin.
    apply elem_of_cons in Hin as [Hin|Hin]; [discriminate Hin|].
    apply list_elem_of_singleton in Hin. discriminate Hin.
Defined.

(** [save_gif_exports] at 10 fps, where 1000/fps is whole. *)
Lemma save_gif_exports_witness :
  exists w',
    _save_gif "out.gif" 10 one_frame_world = Returned w' /\
    length (files w') = 1%nat /\
    inject_Z (1000 / 10)%Z == 1000 / inject_Z 10.
Proof.
  assert (Hframes : _frames (self one_frame_world)
                    = [mkFrame (800%Z, 600%Z) (framebuffer one_frame_world)])
    by (vm_compute; reflexivity).
  assert (Hnone : files one_frame_world = []) by (vm_compute; reflexivity).
  destruct (save_gif_exports "out.gif" 10 one_frame_world) as (_ & H).
  destruct (H _ [] Hframes eq_refl)
    as (w' & Hret & Hfiles & _ & _ & _ & _ & _ & Hexact).
  exists w'. split; [exact Hret|]. split.
  - rewrite Hfiles, Hnone. reflexivity.
  - apply Hexact. exists 100%Z. reflexivity.
Defined.

(** [capture_buffer_retained] for one second at 10 fps. *)
Lemma capture_buffer_retained_witness :
  (0 < 10)%Z /\
  exists w',
    record "basic_vectors.gif" 1 10 basic_world = Returned w' /\
    session_result "basic_vectors.gif" 10 10 basic_world w'.
Proof.
  split; [reflexivity|].
  exact (proj1 (capture_buffer_retained "basic_vectors.gif" 1 10 basic_world
                  eq_refl)).
Defined.

(** [remove_frame] for an entity that is absent and one that is present. *)
Lemma remove_frame_witness :
  remove 7 gifs_world = gifs_world /\
  _objects (self (remove 0 gifs_world)) = [1%nat] /\
  vector_objs (remove 0 gifs_world) !! 0%nat = Some (Vector.mk None).
Proof.
  destruct (remove_frame gifs_world 7) as (H7 & _).
  destruct (remove_frame gifs_world 0) as (_ & H0).
  split.
  - apply H7. intros Hin.
    apply elem_of_cons in Hin as [Hin|Hin]; [discriminate Hin|].
    apply list_elem_of_singleton in Hin. discriminate Hin.
  - destruct H0 as (l1 & l2 & _ & _ & _ & _ & Hback & _); [left|].
    split; [reflexivity|exact Hback].
Defined.

(** * Further properties of the Scene *)

Import Interactive Raising Terms.

(** ** Entities *)

Lemma foldl_set_scene_lookup (l : list ent_id) (w : World) (o : ent_id) :
  vector_objs (foldl (fun w obj => set_scene obj None w) w l) !! o
  = if decide (o ∈ l) then Some (Vector.mk None) else vector_objs w !! o.
Proof.
  revert w. induction l as [|x l IH]; intros w; simpl; [done|].
  rewrite IH. destruct (decide (o ∈ l)) as [Hin|Hin].
  - destruct (decide (o ∈ x :: l)) as [_|Hn]; [done|].
    exfalso. apply Hn. by right.
  - simpl. destruct (decide (x = o)) as [->|Hne].
    + rewrite lookup_insert_eq.
      destruct (decide (o ∈ o :: l)) as [_|Hn]; [done|]. exfalso. apply Hn. by left.
    + rewrite lookup_insert_ne by done.
      destruct (decide (o ∈ x :: l)) as [Hin'|_]; [|done].
      apply elem_of_cons in Hin' as [?|?]; [congruence|done].
Qed.

Lemma foldl_set_scene_frame (l : list ent_id) (w : World) :
  self (foldl (fun w obj => set_scene obj None w) w l) = self w /\
  animation_objs (foldl (fun w obj => set_scene obj None w) w l)
    = animation_objs w /\
  calls (foldl (fun w obj => set_scene obj None w) w l) = calls w /\
  files (foldl (fun w obj => set_scene obj None w) w l) = files w.
Proof.
  revert w. induction l as [|x l IH]; intros w; simpl; [done|].
  destruct (IH (set_scene x None w)) as (-> & -> & -> & ->). done.
Qed.

Lemma missing_nil (active originals : list anim_id) :
  (forall a, a ∈ originals -> a ∈ active) -> missing active originals = [].
Proof.
  induction originals as [|x l IH]; intros Hall; [done|]. simpl.
  destruct (decide (x ∈ active)) as [_|Hn].
  - apply IH. intros a Ha. apply Hall. by right.
  - exfalso. apply Hn, Hall. by left.
Qed.

(** X1. [clear] empties the draw order and the active list, sets the
    back-reference of every entity that was in the draw order to None and of
    no other, and leaves the original list and the Animation objects as they
    were; so a replay after [clear] makes every original animation active
    again (each once, in original order) although no entity is left. *)
Theorem clear_keeps_originals (w : World) :
  _objects (self (clear w)) = [] /\
  _animations (self (clear w)) = [] /\
  _original_animations (self (clear w)) = _original_animations (self w) /\
  animation_objs (clear w) = animation_objs w /\
  (forall o, vector_objs (clear w) !! o
             = if decide (o ∈ _objects (self w)) then Some (Vector.mk None)
               else vector_objs w !! o) /\
  _animations (self (_replay (clear w)))
    = missing [] (_original_animations (self w)) /\
  (NoDup (_original_animations (self w)) ->
   _animations (self (_replay (clear w))) = _original_animations (self w)) /\
  _objects (self (_replay (clear w))) = [].
Proof.
  destruct (foldl_set_scene_frame (_objects (self w)) w) as (Hself & Hobjs & _).
  assert (Hact : _animations (self (clear w)) = []) by done.
  assert (Horig : _original_animations (self (clear w))
                  = _original_animations (self w)).
  { unfold clear. simpl. by rewrite Hself. }
  assert (Hreplay : _animations (self (_replay (clear w)))
                    = missing [] (_original_animations (self w))).
  { rewrite replay_active, Hact, Horig. done. }
  split; [done|]. split; [done|]. split; [done|]. split; [exact Hobjs|].
  split; [|split; [done|split]].
  - intros o. unfold clear. simpl. apply foldl_set_scene_lookup.
  - intros Hnd. rewrite Hreplay, missing_filter by done.
    apply filter_True_id. intros x _. apply not_elem_of_nil.
  - pose proof (playback_replay (clear w)) as Hpb. apply playback_frame in Hpb.
    destruct Hpb as (_&_&_&_&_&_&Ho&_). rewrite Ho. done.
Qed.

Lemma add_fold (objects : list ent_id) (w : World) :
  let new := missing (_objects (self w)) objects in
  self (add objects w) = set_objects (_objects (self w) ++ new) (self w) /\
  (forall o, vector_objs (add objects w) !! o
             = if decide (o ∈ new) then Some (Vector.mk (Some (self_id w)))
               else vector_objs w !! o) /\
  self_id (add objects w) = self_id w /\
  animation_objs (add objects w) = animation_objs w /\
  framebuffer (add objects w) = framebuffer w /\
  files (add objects w) = files w /\
  calls (add objects w) = calls w.
Proof.
  revert w. induction objects as [|x l IH]; intros w; cbn zeta.
  - simpl. rewrite app_nil_r. split; [by destruct w as [? [] ? ? ? ? ?]|]. done.
  - change (add (x :: l) w) with (add l (add1 w x)). simpl missing.
    unfold add1. destruct (decide (x ∈ _objects (self w))) as [Hin|Hin].
    + apply IH.
    + set (w1 := set_scene x (Some (self_id w))
                   (upd_self (set_objects (_objects (self w) ++ [x])) w)).
      destruct (IH w1) as (Hself & Hvec & Hid & Ha & Hfb & Hfi & Hc).
      change (_objects (self w1)) with (_objects (self w) ++ [x]) in *.
      cbn zeta in Hself, Hvec.
      split; [|split; [|done]].
      * rewrite Hself. simpl. by rewrite <- app_assoc.
      * intros o. rewrite Hvec. change (self_id w1) with (self_id w).
        destruct (decide (x = o)) as [->|Hne].
        -- destruct (decide (o ∈ o :: _)) as [_|Hn]; [|exfalso; apply Hn; by left].
           destruct (decide _); [done|]. simpl. by rewrite lookup_insert_eq.
        -- simpl. rewrite lookup_insert_ne by done.
           destruct (decide (o ∈ missing _ l)) as [H1|H1],
                    (decide (o ∈ x :: missing _ l)) as [H2|H2]; try done.
           ++ exfalso. apply H2. by right.
           ++ exfalso. apply elem_of_cons in H2 as [?|?]; [congruence|done].
Qed.

(** X2. [add] with any number of arguments appends, in argument order, the
    arguments that are not in the draw order yet, each once even when it is
    passed several times; it points the back-reference of exactly these to
    this Scene, leaves every other Vector, all Animation objects and every
    other attribute alone, and never produces a duplicate in the draw
    order. *)
Theorem add_appends_new_entities (objects : list ent_id) (w : World) :
  let new := missing (_objects (self w)) objects in
  self (add objects w) = set_objects (_objects (self w) ++ new) (self w) /\
  NoDup new /\
  (forall o, o ∈ new <-> o ∈ objects /\ o ∉ _objects (self w)) /\
  (forall o, vector_objs (add objects w) !! o
             = if decide (o ∈ new) then Some (Vector.mk (Some (self_id w)))
               else vector_objs w !! o) /\
  animation_objs (add objects w) = animation_objs w /\
  calls (add objects w) = calls w /\
  (NoDup (_objects (self w)) -> NoDup (_objects (self (add objects w)))) /\
  add objects (add objects w) = add objects w.
Proof.
  intros new. destruct (add_fold objects w) as (Hself & Hvec & Hid & Ha & Hfb & Hfi & Hc).
  fold new in Hself, Hvec.
  split; [done|]. split; [apply NoDup_missing|]. split; [intros o; apply elem_of_missing|].
  split; [done|]. split; [done|]. split; [done|]. split; [apply add_NoDup|].
  apply add_all_present. apply Forall_forall. intros o Ho.
  rewrite Hself. simpl. apply elem_of_app.
  destruct (decide (o ∈ _objects (self w))); [auto|].
  right. by apply elem_of_missing.
Qed.

Lemma list_remove_last_new (x : nat) (l : list nat) :
  x ∉ l -> list_remove x (l ++ [x]) = Some l.
Proof.
  induction l as [|y l IH]; intros Hx; simpl.
  - by destruct (decide (x = x)).
  - apply not_elem_of_cons in Hx as [Hne Hx].
    destruct (decide (x = y)); [done|]. by rewrite IH.
Qed.

(** X3. Adding an entity that is not in the Scene and removing it again
    gives back the Scene as it was, with the entity's back-reference at None;
    removing an entity of a duplicate-free draw order and adding it again
    moves it to the end of the draw order, every other entity keeping its
    place, and points its back-reference to this Scene. *)
Theorem add_remove_round_trip (w : World) (obj : ent_id) :
  (obj ∉ _objects (self w) ->
     self (remove obj (add [obj] w)) = self w /\
     vector_objs (remove obj (add [obj] w)) !! obj = Some (Vector.mk None) /\
     (forall o, o <> obj ->
        vector_objs (remove obj (add [obj] w)) !! o = vector_objs w !! o)) /\
  (obj ∈ _objects (self w) -> NoDup (_objects (self w)) ->
     _objects (self (add [obj] (remove obj w)))
       = filter (fun o => o <> obj) (_objects (self w)) ++ [obj] /\
     vector_objs (add [obj] (remove obj w)) !! obj
       = Some (Vector.mk (Some (self_id w)))).
Proof.
  split.
  - intros Hnew. unfold add, add1. simpl.
    destruct (decide (obj ∈ _objects (self w))) as [?|_]; [done|].
    unfold remove. simpl.
    destruct (decide (obj ∈ _objects (self w) ++ [obj])) as [_|Hn].
    + rewrite list_remove_last_new by done. simpl.
      split; [by destruct w as [? [] ? ? ? ? ?]|].
      split; [apply lookup_insert_eq|].
      intros o Ho. by rewrite !lookup_insert_ne.
    + exfalso. apply Hn, elem_of_app. right. by left.
  - intros Hin Hnd. unfold remove.
    destruct (decide (obj ∈ _objects (self w))) as [_|?]; [|done].
    rewrite list_remove_NoDup by done. simpl.
    unfold add, add1. simpl.
    destruct (decide (obj ∈ filter (fun o => o <> obj) (_objects (self w))))
      as [Hbad|_].
    + apply list_elem_of_filter in Hbad as [? _]. done.
    + simpl. split; [done|]. apply lookup_insert_eq.
Qed.

(** ** The invariant on reachable worlds *)

Lemma scene_inv_same (w w' : World) :
  _objects (self w') = _objects (self w) ->
  _animations (self w') = _animations (self w) ->
  _original_animations (self w') = _original_animations (self w) ->
  _step_size (self w') = _step_size (self w) ->
  scene_inv w -> scene_inv w'.
Proof. intros H1 H2 H3 H4 (? & ? & ?). unfold scene_inv. by rewrite H1, H2, H3, H4. Qed.

Lemma scene_inv_iter (f : World -> World) (n : nat) (w : World) :
  (forall w, scene_inv w -> scene_inv (f w)) ->
  scene_inv w -> scene_inv (Nat.iter n f w).
Proof. intros Hf Hw. induction n as [|n IH]; simpl; auto. Qed.

Lemma scene_inv_handle_event (w : World) (event : Event) :
  scene_inv w -> scene_inv (handle_event w event).
Proof.
  intros Hinv. destruct event as [|[]]; simpl; try done;
    try (by eapply scene_inv_same; [..|exact Hinv]).
  - by apply scene_inv_preserved.
  - apply (scene_inv_preserved (upd_self (set_paused true) w)).
    by eapply scene_inv_same; [..|exact Hinv].
  - by apply scene_inv_preserved.
Qed.

Lemma scene_inv_show_iteration (dt : Q) (events : list Event) (w : World) :
  scene_inv w -> scene_inv (show_iteration dt events w).
Proof.
  intros Hinv. unfold show_iteration, _handle_events.
  apply scene_inv_preserved, scene_inv_preserved.
  revert w Hinv. induction events as [|e l IH]; intros w Hinv; simpl; [done|].
  apply IH. by apply scene_inv_handle_event.
Qed.

Lemma scene_inv_show_loop (inputs : list (Q * list Event)) (w w' : World) :
  scene_inv w -> show_loop inputs w = Some w' -> scene_inv w'.
Proof.
  revert w. induction inputs as [|[dt events] rest IH]; intros w Hinv; simpl.
  - destruct (_running (self w)); [done|]. intros [= <-].
    by eapply scene_inv_same; [..|exact Hinv].
  - destruct (_running (self w)).
    + apply IH. by apply scene_inv_show_iteration.
    + intros [= <-]. by eapply scene_inv_same; [..|exact Hinv].
Qed.

Lemma scene_inv_capture_frame (w : World) :
  scene_inv w -> scene_inv (_capture_frame w).
Proof.
  intros Hinv. unfold _capture_frame. destruct (negb _); [done|].
  by eapply scene_inv_same; [..|exact Hinv].
Qed.

Lemma scene_inv_capture_iteration (frame_time : Q) (w : World) :
  scene_inv w -> scene_inv (capture_iteration frame_time w).
Proof.
  intros Hinv. unfold capture_iteration.
  apply scene_inv_capture_frame, scene_inv_preserved, scene_inv_preserved.
  by eapply scene_inv_same; [..|exact Hinv].
Qed.

Lemma scene_inv_still_iteration (w : World) :
  scene_inv w -> scene_inv (still_iteration w).
Proof.
  intros Hinv. unfold still_iteration.
  apply scene_inv_capture_frame, scene_inv_preserved.
  by eapply scene_inv_same; [..|exact Hinv].
Qed.

Lemma scene_inv_begin_capture (w : World) :
  scene_inv w -> scene_inv (begin_capture w).
Proof. intros Hinv. by eapply scene_inv_same; [..|exact Hinv]. Qed.

Lemma scene_inv_end_capture (filename : string) (fps : Z) (w : World) :
  scene_inv w ->
  match end_capture filename fps w with
  | Returned w' => scene_inv w'
  | Raised _ w' => scene_inv w'
  end.
Proof.
  intros Hinv. unfold end_capture, _save_gif.
  destruct (_frames (self w)); [by eapply scene_inv_same; [..|exact Hinv]|].
  destruct (bool_decide _); [done|]. cbn zeta.
  destruct (image_save_accepts _); by eapply scene_inv_same; [..|exact Hinv].
Qed.

Lemma scene_inv_record (filename : string) (duration : Q) (fps : Z) (w : World) :
  scene_inv w ->
  match record filename duration fps w with
  | Returned w' => scene_inv w'
  | Raised _ w' => scene_inv w'
  end.
Proof.
  intros Hinv. unfold record. cbv zeta.
  destruct (bool_decide _); [by apply scene_inv_begin_capture|].
  apply scene_inv_end_capture, scene_inv_iter;
    [apply scene_inv_capture_iteration|by apply scene_inv_begin_capture].
Qed.

Lemma scene_inv_record_play (filename : string) (fps : Z) (w : World) :
  scene_inv w ->
  match record_play filename fps w with
  | Returned w' => scene_inv w'
  | Raised _ w' => scene_inv w'
  end.
Proof.
  intros Hinv. unfold record_play. cbv zeta.
  destruct (bool_decide _); [by apply scene_inv_begin_capture|].
  apply scene_inv_end_capture, scene_inv_iter; [apply scene_inv_still_iteration|].
  destruct (capture_loop_spec (1 / inject_Z fps) 0 (begin_capture w))
    as (n & -> & _); [unfold max_frames; lia|].
  simpl. apply scene_inv_iter;
    [apply scene_inv_capture_iteration|by apply scene_inv_begin_capture].
Qed.

(** X4. Whatever a program does with a Scene through its constructor and
    its methods (add, remove, clear, registering animations, key events,
    updates, rendering, interactive and capture sessions, whether they return
    or raise), the draw order never holds an entity twice, every active
    animation is in the original list, and the keyboard step stays 0.05. *)
Theorem reachable_scene_inv (w : World) : reachable w -> scene_inv w.
Proof.
  induction 1 as [dim width height title s id objs vecs Hinit
                 |objects w _ IH|obj w _ IH|w _ IH|anim w _ IH|event w _ IH
                 |dt w _ IH|w _ IH|inputs w w' _ IH Hshow|inputs w w' _ IH Hplay
                 |filename duration fps w w' _ IH Hrec
                 |filename duration fps w e w' _ IH Hrec
                 |filename fps w w' _ IH Hrec|filename fps w e w' _ IH Hrec].
  - by apply (init_inv dim width height title s id objs vecs).
  - by apply scene_inv_preserved.
  - by apply scene_inv_preserved.
  - by apply scene_inv_preserved.
  - by apply scene_inv_preserved.
  - by apply scene_inv_handle_event.
  - by apply scene_inv_preserved.
  - by apply scene_inv_preserved.
  - unfold show in Hshow. eapply scene_inv_show_loop; [|exact Hshow].
    by eapply scene_inv_same; [..|exact IH].
  - unfold play, show in Hplay. eapply scene_inv_show_loop; [|exact Hplay].
    by eapply scene_inv_same; [..|exact IH].
  - pose proof (scene_inv_record filename duration fps w IH) as Hr.
    by rewrite Hrec in Hr.
  - pose proof (scene_inv_record filename duration fps w IH) as Hr.
    by rewrite Hrec in Hr.
  - pose proof (scene_inv_record_play filename fps w IH) as Hr.
    by rewrite Hrec in Hr.
  - pose proof (scene_inv_record_play filename fps w IH) as Hr.
    by rewrite Hrec in Hr.
Qed.

Lemma registered_once_same (w w' : World) :
  _animations (self w') = _animations (self w) ->
  _original_animations (self w') = _original_animations (self w) ->
  registered_once w -> registered_once w'.
Proof. intros H1 H2 (? & ?). unfold registered_once. by rewrite H1, H2. Qed.

Lemma registered_once_handle_event (w : World) (event : Event) :
  registered_once w -> registered_once (handle_event w event).
Proof.
  intros Hinv. destruct event as [|[]]; simpl; try done;
    try (by eapply registered_once_same; [..|exact Hinv]).
  - by apply registered_once_preserved.
  - apply (registered_once_preserved (upd_self (set_paused true) w)).
    by eapply registered_once_same; [..|exact Hinv].
  - by apply registered_once_preserved.
Qed.

(** X5. When every animation has been registered once, no animation is ever
    listed twice in the active list: key events (replay and both kinds of
    stepping included), updates, whole iterations of the interactive loop
    and of the capture loops keep the original list and the active list free
    of duplicates, and so does registering an animation that is not
    registered yet. *)
Theorem active_list_never_duplicated (w : World) :
  registered_once w ->
  (forall event, registered_once (handle_event w event)) /\
  (forall dt, registered_once (_update dt w)) /\
  (forall dt events, registered_once (show_iteration dt events w)) /\
  (forall frame_time, registered_once (capture_iteration frame_time w)) /\
  registered_once (still_iteration w) /\
  (forall anim, anim ∉ _original_animations (self w) -> scene_inv w ->
                registered_once (_add_animation anim w)).
Proof.
  intros Hinv.
  assert (Hrender : forall w0, registered_once w0 -> registered_once (_render w0)).
  { intros w0 H0. destruct (render_frame w0) as (Hself & _).
    unfold registered_once. by rewrite Hself. }
  assert (Hcapture : forall w0, registered_once w0 ->
                                registered_once (_capture_frame w0)).
  { intros w0 H0. unfold _capture_frame. destruct (negb _); [done|].
    by eapply registered_once_same; [..|exact H0]. }
  split; [intros; by apply registered_once_handle_event|].
  split; [intros; by apply registered_once_preserved|].
  split; [|split; [|split]].
  - intros dt events. unfold show_iteration, _handle_events.
    apply Hrender, registered_once_preserved.
    revert w Hinv. induction events as [|e l IH]; intros w Hinv; simpl; [done|].
    apply IH. by apply registered_once_handle_event.
  - intros frame_time. unfold capture_iteration.
    apply Hcapture, Hrender, registered_once_preserved.
    by eapply registered_once_same; [..|exact Hinv].
  - unfold still_iteration. apply Hcapture, Hrender.
    by eapply registered_once_same; [..|exact Hinv].
  - intros anim Hnew Hsi. by apply registered_once_preserved.
Qed.

(** ** [_update] never raises *)

Lemma remove_finished_exn_sublist (fin : list anim_id) (w : World) :
  sublist fin (_animations (self w)) ->
  remove_finished_exn w fin = inr (foldl active_remove w fin).
Proof.
  revert w. induction fin as [|x fin IH]; intros w Hsub; simpl; [done|].
  assert (Hin : x ∈ _animations (self w)).
  { eapply sublist_subseteq; [exact Hsub|]. by left. }
  destruct (list_remove_split _ _ Hin) as (l1 & l2 & Hl & Hl1 & Hrm).
  unfold active_remove_exn, active_remove. rewrite Hrm.
  apply IH. simpl. rewrite Hl in Hsub. by eapply sublist_remove_first.
Qed.

(** X6. The [list.remove] calls of [_update] never raise [ValueError]:
    whatever the active list holds, duplicates included, every animation
    noted as finished is still in the list when it is removed, so [_update]
    always returns. *)
Theorem update_never_raises (dt : Q) (w : World) :
  _update_exn dt w = inr (_update dt w).
Proof.
  unfold _update_exn, _update. destruct (_paused (self w)); [done|]. cbv zeta.
  set (w1 := timeline_call (Timeline.update dt) (TimelineUpdate dt) w).
  pose proof (update1_fold_world dt (_animations (self w1)) w1 []) as Hw.
  destruct (update1_fold_finished dt (_animations (self w1)) w1 [])
    as (fin & Hfin & Hsub).
  destruct (foldl (update1 dt) (w1, []) (_animations (self w1))) as [w2 fin'].
  simpl in Hw, Hfin. subst w2 fin'.
  apply remove_finished_exn_sublist. by rewrite advance_all_self.
Qed.

(** ** Animations listed more than once *)

Lemma fmap_iter_succ {A} (f : A -> A) (n : nat) (o : option A) :
  Nat.iter n f <$> (f <$> o) = Nat.iter (S n) f <$> o.
Proof. destruct o as [x|]; [|done]. simpl. f_equal. by rewrite <- Nat.iter_succ_r. Qed.

Lemma advance_all_count (dt : Q) (l : list anim_id) (w : World) (a : anim_id) :
  animation_objs (foldl (anim_update dt) w l) !! a
  = Nat.iter (occurrences a l) (Animation.update dt) <$> animation_objs w !! a.
Proof.
  revert w. induction l as [|x l IH]; intros w; simpl.
  - by destruct (animation_objs w !! a).
  - rewrite IH. unfold occurrences. destruct (decide (x = a)) as [->|Hne].
    + rewrite filter_cons_True by done. unfold anim_update at 1.
      rewrite animation_call_lookup_eq. apply fmap_iter_succ.
    + rewrite filter_cons_False by done. unfold anim_update at 1.
      by rewrite animation_call_lookup_ne.
Qed.

(** X7. One step advances an Animation object once for every time it is
    listed in the active list: [_step] and an unpaused [_update] apply the
    update of the Animation as many times as the animation occurs there, so
    an animation registered twice runs at double speed, and one that is not
    active is not touched. *)
Theorem step_advances_per_listing (dt : Q) (w : World) (a : anim_id) :
  animation_objs (_step dt w) !! a
    = Nat.iter (occurrences a (_animations (self w))) (Animation.update dt)
        <$> animation_objs w !! a /\
  (_paused (self w) = false ->
   animation_objs (_update dt w) !! a
     = Nat.iter (occurrences a (_animations (self w))) (Animation.update dt)
         <$> animation_objs w !! a) /\
  occurrences a (_animations (self (_add_animation a (_add_animation a w))))
    = (2 + occurrences a (_animations (self w)))%nat /\
  (a ∉ _animations (self w) ->
   animation_objs (_step dt w) !! a = animation_objs w !! a).
Proof.
  assert (Hstep : animation_objs (_step dt w) !! a
    = Nat.iter (occurrences a (_animations (self w))) (Animation.update dt)
        <$> animation_objs w !! a).
  { unfold _step. cbv zeta. by rewrite advance_all_count. }
  split; [done|]. split; [|split].
  - intros Hp. destruct (update_unfold dt w Hp) as (fin & l' & _ & _ & -> & _).
    simpl. by rewrite advance_all_count.
  - simpl. unfold occurrences. rewrite !filter_app, !length_app.
    rewrite !filter_cons_True by done. simpl. lia.
  - intros Hnot. rewrite Hstep.
    replace (occurrences a (_animations (self w))) with 0%nat.
    + by destruct (animation_objs w !! a).
    + unfold occurrences. rewrite filter_False_nil; [done|].
      intros x Hx ->. done.
Qed.

(** ** Replay twice *)

Lemma playback_self (w w' : World) :
  playback w w' ->
  self w' = set_paused (_paused (self w'))
              (set_animations (_animations (self w'))
                 (set_timeline (_timeline (self w')) (self w))).
Proof. intros (? & ? & ? & ? & ? & ->). done. Qed.

(** X8. Replaying twice in a row is the same as replaying once: the second
    [_replay] leaves every attribute of the Scene (the active list and its
    order included) and every Animation object as the first one left
    them. *)
Theorem replay_twice (w : World) :
  self (_replay (_replay w)) = self (_replay w) /\
  animation_objs (_replay (_replay w)) = animation_objs (_replay w) /\
  vector_objs (_replay (_replay w)) = vector_objs (_replay w).
Proof.
  set (w1 := _replay w).
  pose proof (replay_active w) as Hact1. fold w1 in Hact1.
  pose proof (playback_replay w) as Hpb1. fold w1 in Hpb1.
  pose proof (playback_frame _ _ Hpb1) as (_&_&_&_&_&_&_&Horig1&_).
  assert (Hm : missing (_animations (self w1)) (_original_animations (self w1)) = []).
  { apply missing_nil. intros a Ha. rewrite Hact1, Horig1 in *.
    apply elem_of_app. destruct (decide (a ∈ _animations (self w))); [auto|].
    right. by apply elem_of_missing. }
  pose proof (replay_active w1) as Hact2. rewrite Hm, app_nil_r in Hact2.
  destruct (reset_and_restore w) as (_ & Hobjs1 & _).
  destruct (reset_and_restore w1) as (_ & Hobjs2 & _).
  split; [|split].
  - rewrite (playback_self _ _ (playback_replay w1)), Hact2.
    change (_paused (self (_replay w1))) with false.
    change (_timeline (self (_replay w1))) with (Timeline.mk 0 Timeline.Playing).
    pose proof (playback_self _ _ Hpb1) as Hs1.
    change (_paused (self w1)) with false in Hs1.
    change (_timeline (self w1)) with (Timeline.mk 0 Timeline.Playing) in Hs1.
    remember (_animations (self w1)) as A eqn:HA. clear HA.
    rewrite Hs1. done.
  - apply map_eq. intros a.
    change (animation_objs (_replay w1) !! a)
      with (animation_objs (restore_missing (reset_active w1)) !! a).
    rewrite Hobjs2, Hm, app_nil_r.
    destruct (decide (a ∈ _animations (self w1))) as [Hin|_]; [|done].
    change (animation_objs w1 !! a)
      with (animation_objs (restore_missing (reset_active w)) !! a).
    rewrite Hobjs1. rewrite Hact1 in Hin.
    destruct (decide _) as [_|Hn]; [|done].
    by destruct (animation_objs w !! a).
  - pose proof (playback_frame _ _ (playback_replay w1)) as (_&?&_). done.
Qed.

(** ** Scrubbing backward *)

Lemma target_progress_cases (w : World) :
  (Qltb 0 (target_progress w) = true /\ 0 < target_progress w) \/
  (Qltb 0 (target_progress w) = false /\ target_progress w = 0).
Proof.
  unfold target_progress, py_max.
  destruct (Qltb 0 (_get_total_progress w - _step_size (self w))) eqn:Hb.
  - left. split; [done|]. unfold Qltb in Hb.
    destruct (Qle_bool _ 0) eqn:Hle; [done|].
    apply Qnot_le_lt. intros Hc. apply Qle_bool_iff in Hc. congruence.
  - right. done.
Qed.

Lemma NoDup_split (a : nat) (l : list nat) :
  NoDup l -> a ∈ l -> exists l1 l2, l = l1 ++ a :: l2 /\ (a ∉ l1) /\ (a ∉ l2).
Proof.
  intros Hnd Hin. apply list_elem_of_split in Hin as (l1 & l2 & ->).
  exists l1, l2. split; [done|].
  apply NoDup_app in Hnd as (_ & Hd & Hn2). apply NoDup_cons in Hn2 as [? _].
  split; [|done]. intros H1. apply (Hd a H1). by left.
Qed.

(** X9. [_step_backward] brings every animation to one common progress: when
    no animation is listed twice, each animation that is active afterwards
    (those that were active, and the original ones that had finished and are
    made active again) ends at the target progress, which is the aggregate
    progress minus one step and at least 0, or at its own duration if that
    is less; the Scene ends paused, and nothing is removed even where the
    duration is reached. *)
Theorem step_backward_scrubs_every_animation (w : World) (a : anim_id)
    (obj : Animation.t) :
  NoDup (_animations (self w)) ->
  a ∈ _animations (self (_step_backward w)) ->
  animation_objs w !! a = Some obj ->
  0 <= Animation._duration obj ->
  exists obj',
    animation_objs (_step_backward w) !! a = Some obj' /\
    Animation._duration obj' = Animation._duration obj /\
    Animation._kind obj' = Animation._kind obj /\
    (target_progress w <= Animation._duration obj ->
       Animation._elapsed obj' == target_progress w) /\
    (Animation._duration obj <= target_progress w ->
       Animation._elapsed obj' == Animation._duration obj) /\
    _paused (self (_step_backward w)) = true /\
    _animations (self (_step_backward w))
      = _animations (self w)
          ++ missing (_animations (self w)) (_original_animations (self w)).
Proof.
  intros Hnd Hin Hobj Hd.
  pose proof (step_backward_active w) as Hact. rewrite Hact in Hin.
  destruct (reset_and_restore w) as (Hact2 & Hobjs & _ & _).
  assert (Hreset : animation_objs (restore_missing (reset_active w)) !! a
                   = Some (Animation.reset obj)).
  { rewrite Hobjs, Hobj. by destruct (decide _). }
  unfold _step_backward in *. cbv zeta in *.
  fold (target_progress w) in *.
  destruct (target_progress_cases w) as [[Hb Hpos]|[Hb Hzero]]; rewrite Hb in *.
  - set (w3 := timeline_call Timeline.stop TimelineStop
                 (restore_missing (reset_active w))).
    destruct (NoDup_split a _ (restored_NoDup _ (_original_animations (self w)) Hnd) Hin)
      as (l1 & l2 & Hl & Hl1 & Hl2).
    assert (Hfinal : animation_objs (_step (target_progress w) w3) !! a
                     = Some (Animation.update (target_progress w) (Animation.reset obj))).
    { unfold _step. cbv zeta.
      change (_animations (self (timeline_call _ _ w3)))
        with (_animations (self (restore_missing (reset_active w)))).
      rewrite Hact2, Hl, advance_all_once by done.
      change (animation_objs (timeline_call _ _ w3))
        with (animation_objs (restore_missing (reset_active w))).
      by rewrite Hreset. }
    eexists. split; [exact Hfinal|]. simpl.
    repeat split; try done.
    + intros Hle. destruct (Qle_bool _ _) eqn:Hq; [|ring].
      apply Qle_bool_iff in Hq. lra.
    + intros Hle. destruct (Qle_bool _ _) eqn:Hq; [reflexivity|].
      exfalso. assert (Hq' : Qle_bool (Animation._duration obj)
                               (0 + target_progress w) = true).
      { apply Qle_bool_iff. lra. }
      congruence.
  - eexists. split; [exact Hreset|]. simpl. rewrite Hzero.
    repeat split; try done. intros Hle. lra.
Qed.

(** ** Errors and edges of the capture sessions *)




(** ** What the captured frames show *)



Lemma self_eta_frames (w : World) :
  self w = set_frames (_frames (self w)) (set_recording (_recording (self w)) (self w)).
Proof. by destruct w as [? [] ? ? ? ? ?]. Qed.













Lemma depicted_active (w w' : World) :
  depicted w' = depicted w ->
  _animations (self w') = _animations (self w) /\
  _paused (self w') = _paused (self w) /\
  animation_objs w' = animation_objs w.
Proof.
  intros Heq. split; [|split].
  - by apply (f_equal (fun d => _animations d.1.1)) in Heq.
  - by apply (f_equal (fun d => _paused d.1.1)) in Heq.
  - by apply (f_equal (fun d => d.1.2)) in Heq.
Qed.




(** ** What a render pass draws *)

Lemma drawn_entity_draw_object (cam : bool) (w : World) (obj : ent_id) :
  drawn_entity w (draw_object cam w obj) = Some obj.
Proof.
  unfold draw_object. destruct (active_anim w obj) as [anim|] eqn:Ha; [|done].
  destruct (negb _); [|done].
  apply active_anim_first in Ha as (_ & _ & _ & (a & Hl & Hk) & _).
  simpl. by rewrite Hl, Hk.
Qed.

Lemma omap_map_Some {A B} (f : B -> option A) (g : A -> B) (l : list A) :
  (forall x, f (g x) = Some x) -> omap f (map g l) = l.
Proof. intros Hfg. induction l as [|x l IH]; [done|]. csimpl. by rewrite Hfg, IH. Qed.

Lemma omap_map_None {A B C} (f : B -> option C) (g : A -> B) (l : list A) :
  (forall x, f (g x) = None) -> omap f (map g l) = [].
Proof. intros Hfg. induction l as [|x l IH]; [done|]. csimpl. by rewrite Hfg, IH. Qed.

Lemma drawn_entities_pass (w : World) :
  drawn_entities w (current_pass w) = _objects (self w).
Proof.
  rewrite current_pass_unfold. cbv zeta. unfold drawn_entities, grid_part.
  rewrite !omap_app.
  rewrite (omap_map_None (drawn_entity w)) by done.
  rewrite (omap_map_Some (drawn_entity w))
    by (intros; apply drawn_entity_draw_object).
  destruct (bool_decide _), (_show_grid (self w)); simpl; by rewrite app_nil_r.
Qed.

(** X14. A render pass draws each entity of the draw order exactly once, in
    insertion order, and draws no other entity, whatever animations are
    active: an entity that has been removed is no longer drawn even while an
    animation that targets it stays active, and after [clear] no entity is
    drawn at all. *)
Theorem render_draws_the_draw_order (w : World) :
  drawn_entities w (current_pass w) = _objects (self w) /\
  framebuffer (_render w) = current_pass w /\
  (forall obj, NoDup (_objects (self w)) ->
     obj ∉ drawn_entities (remove obj w) (current_pass (remove obj w))) /\
  drawn_entities (clear w) (current_pass (clear w)) = [].
Proof.
  split; [apply drawn_entities_pass|]. split; [by rewrite render_current_pass|].
  split.
  - intros obj Hnd. rewrite drawn_entities_pass. unfold remove.
    destruct (decide (obj ∈ _objects (self w))) as [Hin|Hin]; [|done].
    rewrite list_remove_NoDup by done. simpl.
    intros [? _]%list_elem_of_filter. done.
  - by rewrite drawn_entities_pass.
Qed.

(** ** The interactive loop *)

Lemma playback_running (w w' : World) :
  playback w w' -> _running (self w') = _running (self w).
Proof. intros (? & ? & ? & ? & ? & ->). done. Qed.

Lemma handle_event_running (w : World) (event : Event) :
  _running (self (handle_event w event))
  = if is_quit event then false else _running (self w).
Proof.
  destruct event as [|[]]; simpl; try done.
  - apply (playback_running _ _ (playback_replay w)).
  - apply (playback_running _ _
             (playback_step (_step_size (self w)) (upd_self (set_paused true) w))).
  - apply (playback_running _ _ (playback_step_backward w)).
Qed.

Lemma handle_events_running (events : list Event) (w : World) :
  _running (self (_handle_events events w))
  = if existsb is_quit events then false else _running (self w).
Proof.
  unfold _handle_events. revert w.
  induction events as [|e l IH]; intros w; simpl; [done|].
  rewrite IH, handle_event_running. by destruct (is_quit e), (existsb is_quit l).
Qed.

Lemma show_iteration_running (dt : Q) (events : list Event) (w : World) :
  _running (self (show_iteration dt events w))
  = if existsb is_quit events then false else _running (self w).
Proof.
  unfold show_iteration. destruct (render_frame (_update dt (_handle_events events w)))
    as (-> & _).
  rewrite (playback_running _ _ (playback_update dt _)).
  apply handle_events_running.
Qed.

Lemma show_loop_stops (pre post : list (Q * list Event)) (dt : Q)
    (events : list Event) (w : World) :
  _running (self w) = true ->
  Forall (fun i => existsb is_quit i.2 = false) pre ->
  existsb is_quit events = true ->
  show_loop (pre ++ (dt, events) :: post) w
  = Some (log [QuitPygame]
            (show_iteration dt events
               (foldl (fun w i => show_iteration i.1 i.2 w) w pre))).
Proof.
  intros Hrun Hpre Hquit. revert w Hrun.
  induction Hpre as [|[dt0 ev0] pre Hno _ IH]; intros w Hrun; simpl.
  - rewrite Hrun.
    assert (Hstop : _running (self (show_iteration dt events w)) = false).
    { by rewrite show_iteration_running, Hquit. }
    destruct post as [|[? ?] ?]; simpl; by rewrite Hstop.
  - rewrite Hrun. apply IH. rewrite show_iteration_running. simpl in Hno.
    by rewrite Hno.
Qed.

Lemma show_loop_runs_on (inputs : list (Q * list Event)) (w : World) :
  _running (self w) = true ->
  Forall (fun i => existsb is_quit i.2 = false) inputs ->
  show_loop inputs w = None.
Proof.
  intros Hrun Hall. revert w Hrun.
  induction Hall as [|[dt0 ev0] l Hno _ IH]; intros w Hrun; simpl.
  - by rewrite Hrun.
  - rewrite Hrun. apply IH. rewrite show_iteration_running. simpl in Hno.
    by rewrite Hno.
Qed.

(** X15. [show] ends exactly with the first iteration whose events hold a
    quit event or an Escape key press: the iterations before it and that
    iteration itself are handled, updated and rendered in full (events behind
    the quit in the same batch included), [pygame.quit()] comes last, the
    Scene ends with running off, and later input is never read.  As long as
    no such event arrives the loop keeps running.  [play] is the same after
    starting the Timeline. *)
Theorem show_stops_at_first_quit (pre post : list (Q * list Event)) (dt : Q)
    (events : list Event) (w : World) :
  Forall (fun i => existsb is_quit i.2 = false) pre ->
  existsb is_quit events = true ->
  let start := upd_self (set_running true) (_init_pygame w) in
  let final := show_iteration dt events
                 (foldl (fun w i => show_iteration i.1 i.2 w) start pre) in
  show (pre ++ (dt, events) :: post) w = Some (log [QuitPygame] final) /\
  _running (self final) = false /\
  show pre w = None /\
  play (pre ++ (dt, events) :: post) w
    = show (pre ++ (dt, events) :: post)
        (timeline_call Timeline.play TimelinePlay w).
Proof.
  intros Hpre Hquit start final. split; [|split; [|split]].
  - unfold show. cbv zeta. by apply show_loop_stops.
  - unfold final. by rewrite show_iteration_running, Hquit.
  - unfold show. cbv zeta. by apply show_loop_runs_on.
  - done.
Qed.

(** ** How long [record_play] runs *)



(** ** The further properties at the sample worlds *)

(** The frame count of [record] follows the binary64 product: 0.29 * 100 is
    just below 29, while 0.3 * 10 is 3 although the binary64 value of 0.3 is
    below 3/10. *)
Example total_frames_binary64 :
  total_frames (29 # 100) 100 = 28%Z /\
  total_frames (3 # 10) 10 = 3%Z /\
  total_frames (5404319552844595 # 18014398509481984) 10 = 3%Z /\
  py_int ((5404319552844595 # 18014398509481984) * 10) = 2%Z /\
  total_frames 3 30 = 90%Z.
Proof. vm_compute. repeat split. Qed.

(** [py_float_mul] against the multiplication of the primitive floats, on
    the binary64 values nearest to 0.29, 0.3, 1.1 and 1e-320. *)
Module Binary64.
Import Floats.

Example py_float_mul_primitive :
  float_value (0x1.28f5c28f5c28fp-2 * 100)%float
    = Some (py_float_mul (29 # 100) 100) /\
  float_value (0x1.3333333333333p-2 * 10)%float
    = Some (py_float_mul (3 # 10) 10) /\
  float_value (0x1.199999999999ap+0 * 0x1.199999999999ap+0)%float
    = Some (py_float_mul (11 # 10) (11 # 10)) /\
  float_value (0x0.00000000007e8p-1022 * 3)%float
    = Some (py_float_mul (1 / 10 ^ 320) 3).
Proof. vm_compute. repeat split. Qed.

End Binary64.

(** A negative fps gives a negative frame duration, which the export does
    not write. *)
Example save_gif_rejects_negative_duration :
  frame_duration (-10) = (-100)%Z /\
  _save_gif "out.gif" (-10) one_frame_world
    = Raised ImageSaveError (log [ImageSave "out.gif"] one_frame_world).
Proof. split; vm_compute; reflexivity. Qed.

(** With animations in flight an iteration of the capture loop changes what
    the next pass draws. *)
Example capture_iteration_moves_animations :
  depicted (capture_iteration (1 # 10) (begin_capture gifs_world))
    <> depicted gifs_world.
Proof.
  intros Heq. apply depicted_active in Heq as (_ & _ & Hobjs).
  apply (f_equal (fun m => m !! 10%nat)) in Hobjs.
  vm_compute in Hobjs. discriminate Hobjs.
Qed.

Lemma NoDup_10_11 : NoDup [10; 11]%nat.
Proof.
  apply NoDup_cons. split; [|apply NoDup_singleton].
  intros Hin. apply list_elem_of_singleton in Hin. discriminate Hin.
Qed.

Lemma gifs_world_originals : _original_animations (self gifs_world) = [10; 11]%nat.
Proof. reflexivity. Qed.

(** [reachable_scene_inv] for the linear-transform scene. *)
Lemma reachable_scene_inv_witness :
  reachable gifs_world /\ scene_inv gifs_world.
Proof.
  assert (H : reachable gifs_world).
  { unfold gifs_world. apply reach_add_animation, reach_add_animation, reach_add.
    unfold fresh. apply (reach_init 2 800 600 "linalg-viz"). reflexivity. }
  split; [exact H|exact (reachable_scene_inv _ H)].
Defined.

(** [active_list_never_duplicated] for the linear-transform scene and a
    step backward. *)
Lemma active_list_never_duplicated_witness :
  registered_once gifs_world /\
  registered_once (handle_event gifs_world (KEYDOWN K_LEFT)).
Proof.
  assert (H : registered_once gifs_world).
  { split; [rewrite gifs_world_originals|rewrite gifs_world_active];
      exact NoDup_10_11. }
  split; [exact H|].
  destruct (active_list_never_duplicated gifs_world H) as (Hev & _).
  apply Hev.
Defined.

(** [step_backward_scrubs_every_animation] for an animation that had
    finished: it comes back one step before the progress of the running
    one. *)
Lemma step_backward_scrubs_every_animation_witness :
  exists obj',
    animation_objs (_step_backward (_update (1 # 2) (started staggered_world)))
      !! 10%nat = Some obj' /\
    Animation._elapsed obj' == 9 # 20.
Proof.
  assert (Hact : _animations (self (_update (1 # 2) (started staggered_world)))
                 = [11%nat]) by (vm_compute; reflexivity).
  assert (Hafter : _animations
                     (self (_step_backward (_update (1 # 2) (started staggered_world))))
                   = [11; 10]%nat) by (vm_compute; reflexivity).
  assert (Hobj : animation_objs (_update (1 # 2) (started staggered_world)) !! 10%nat
                 = Some (Animation.mk (Animation.VectorAnimation 0) (1 # 2) (1 # 2)))
    by (vm_compute; reflexivity).
  assert (Htarget : target_progress (_update (1 # 2) (started staggered_world))
                    == 9 # 20) by (vm_compute; reflexivity).
  destruct (step_backward_scrubs_every_animation
              (_update (1 # 2) (started staggered_world)) 10
              (Animation.mk (Animation.VectorAnimation 0) (1 # 2) (1 # 2)))
    as (obj' & Hlook & _ & _ & Hto & _).
  - rewrite Hact. apply NoDup_singleton.
  - rewrite Hafter. right. left.
  - exact Hobj.
  - simpl. lra.
  - exists obj'. split; [exact Hlook|]. rewrite <- Htarget. apply Hto.
    rewrite Htarget. simpl. lra.
Defined.




(** [show_stops_at_first_quit]: a pause, then a quit, then input that is
    never read. *)
Lemma show_stops_at_first_quit_witness :
  is_Some (show [(1 # 60, [KEYDOWN K_SPACE]); (1 # 60, [QUIT]); (1 # 60, [KEYDOWN K_r])]
             gifs_world) /\
  show [(1 # 60, [KEYDOWN K_SPACE])] gifs_world = None.
Proof.
  destruct (show_stops_at_first_quit [(1 # 60, [KEYDOWN K_SPACE])]
              [(1 # 60, [KEYDOWN K_r])] (1 # 60) [QUIT] gifs_world)
    as (Hshow & _ & Hrun & _).
  - apply Forall_cons. split; [reflexivity|apply Forall_nil_2].
  - reflexivity.
  - split; [|exact Hrun]. simpl app in Hshow. rewrite Hshow. eexists. reflexivity.
Defined.

